(** * libsecret: the call chains of [library/secret-methods.c]

    A shallow embedding of the asynchronous chains of [secret-methods.c]
    (search, get-secrets, lock/unlock, lookup) and of their blocking
    variants, with the properties of their completion, error and result
    handling.

    Conventions of the embedding.
    - A [GHashTable] created with [g_str_hash]/[g_str_equal] is a
      [gmap string _]; [g_hash_table_insert] on a present key replaces the
      value.
    - A [gchar **] that may be [NULL] is an [option (list ObjectPath)]; the
      [NULL]-terminated array itself is the list.
    - A [guint] is a [Z] reduced modulo [2^32] after each update.
    - A callback of the main loop is a function from the reply it is handed
      and the state of the operation to the new state; the replies come from
      the environment, in whatever order the main loop delivers them.
    - The [GCancellable] is only ever forwarded to the calls that are
      issued, and is left out. *)

From Stdlib Require Import ZArith Lia.
From stdpp Require Import gmap strings list fin_maps.

Local Open Scope Z_scope.

(** ** Data model *)

Abbreviation ObjectPath := string (only parsing).

Record GError := { error_code : Z; error_message : string }.

#[global] Instance GError_eq_dec : EqDecision GError.
Proof. solve_decision. Defined.

(** A proxy object ([SecretItem], [SecretCollection]): the address of the
    instance and the object path it was constructed for, which is what
    [g_dbus_proxy_get_object_path] returns. *)
Record SecretItem := { item_instance : positive; item_path : string }.

#[global] Instance SecretItem_eq_dec : EqDecision SecretItem.
Proof. solve_decision. Defined.

#[global] Instance SecretItem_countable : Countable SecretItem.
Proof.
  apply (inj_countable' (λ it, (item_instance it, item_path it))
                        (λ p, {| item_instance := p.1; item_path := p.2 |})).
  by intros [].
Defined.

(** What a callback leaves behind: it returned, or it indexed a [NULL]
    array; [s] is the state reached at that point. *)
Inductive Run (S A : Type) :=
| Returned (a : A)
| NullDeref (s : S).
Arguments Returned {S A} a.
Arguments NullDeref {S A} s.

Definition guint (z : Z) : Z := z mod 2 ^ 32.

(** [gint] value of a [guint] (the conversion at [count = array->len]). *)
Definition gint_of_guint (z : Z) : Z :=
  if z <? 2 ^ 31 then z else z - 2 ^ 32.

(** ** GSimpleAsyncResult

    The part of GLib's [GSimpleAsyncResult] the chains use: the error slot,
    the operation's closure ([op_res_gpointer]), and the callback. *)
Module GSimpleAsyncResult.
Section Result.
Context {C : Type}.

Record t := { error : option GError; op_res : C }.

(** [g_simple_async_result_take_error] (GLib, [gio/gsimpleasyncresult.c]):
    [if (simple->error) g_error_free (simple->error); simple->error = error;
    simple->failed = TRUE;]. An error already stored is freed and
    replaced. *)
Definition take_error (e : GError) (res : t) : t :=
  {| error := Some e; op_res := op_res res |}.

Definition set_op_res (c : C) (res : t) : t :=
  {| error := error res; op_res := c |}.

(** [g_simple_async_result_propagate_error]: [Some e] when it returns
    [TRUE] and moves [e] to the caller. *)
Definition propagate_error (res : t) : option GError := error res.
End Result.
Arguments t : clear implicits.
End GSimpleAsyncResult.

Abbreviation GSimpleAsyncResult := GSimpleAsyncResult.t.

(** An operation in flight: its result object, the result as it stood at
    each invocation of the caller's callback (oldest first), and the
    requests [R] it has issued so far (oldest first). *)
Record Operation (C R : Type) := {
  res : GSimpleAsyncResult C;
  callbacks : list (GSimpleAsyncResult C);
  issued : list R
}.
Arguments res {C R} _.
Arguments callbacks {C R} _.
Arguments issued {C R} _.

Section Operation.
Context {C R : Type}.

Definition operation_new (c : C) : Operation C R :=
  {| res := {| GSimpleAsyncResult.error := None; GSimpleAsyncResult.op_res := c |};
     callbacks := []; issued := [] |}.

Definition closure (op : Operation C R) : C := GSimpleAsyncResult.op_res (res op).

Definition set_closure (c : C) (op : Operation C R) : Operation C R :=
  {| res := GSimpleAsyncResult.set_op_res c (res op);
     callbacks := callbacks op; issued := issued op |}.

Definition g_simple_async_result_take_error (e : GError) (op : Operation C R) : Operation C R :=
  {| res := GSimpleAsyncResult.take_error e (res op);
     callbacks := callbacks op; issued := issued op |}.

(** [g_simple_async_result_complete] (GLib): runs the callback on the
    result as it is now, at every call; it keeps no record of an earlier
    completion. *)
Definition g_simple_async_result_complete (op : Operation C R) : Operation C R :=
  {| res := res op; callbacks := callbacks op ++ [res op]; issued := issued op |}.

Definition issue (r : R) (op : Operation C R) : Operation C R :=
  {| res := res op; callbacks := callbacks op; issued := issued op ++ [r] |}.

(** An asynchronous call with a callback: the request goes out, and the
    main loop later runs [callback] on the reply. *)
Definition call {Reply : Type} (r : R) (reply : Reply)
    (callback : Reply → Operation C R → Operation C R)
    (op : Operation C R) : Operation C R :=
  callback reply (issue r op).

(** Modelled from the spec: [_secret_sync_on_result] and the [SecretSync]
    loop are defined outside this file. The private loop is pumped until
    the chain's completion fires; the callback keeps the result it is
    handed at that first invocation and quits the loop. With no invocation
    [g_main_loop_run] does not return ([None]). *)
Definition sync_result (op : Operation C R) : option (GSimpleAsyncResult C) :=
  head (callbacks op).
End Operation.

(** ** Replies of the calls a chain waits for *)

(** [secret_service_search_for_paths_finish]: on success both arrays are
    stored; on failure the error is set and [unlocked]/[locked] say what the
    two out-cells hold afterwards ([None]: still the [NULL] they were
    initialised with). *)
Inductive SearchPathsReply :=
| PathsFound (unlocked locked : list ObjectPath)
| PathsFailed (e : GError) (unlocked locked : option (list ObjectPath)).

(** [secret_item_new_finish] / [secret_item_new_sync]. *)
Inductive LoadResult :=
| Loaded (item : SecretItem)
| LoadFailed (e : GError).

Definition load_item (r : LoadResult) : option SecretItem :=
  match r with Loaded it => Some it | LoadFailed _ => None end.

Definition load_error (r : LoadResult) : option GError :=
  match r with Loaded _ => None | LoadFailed e => Some e end.

(** ** Search *)

Record SearchClosure := {
  items : gmap string SecretItem;
  unlocked : option (list ObjectPath);
  locked : option (list ObjectPath);
  loading : Z
}.

Abbreviation SearchOp := (Operation SearchClosure ObjectPath).

(** The table of [SearchClosure] is created with no key copy and no key
    destroy function, and the key inserted here is the path string the
    proxy owns. [g_hash_table_insert] on a present path keeps the key that
    is there and releases the proxy that was the value: when that proxy is
    a different one, the key is left pointing into an object the table no
    longer holds. The insertion below is the table as long as an entry is
    only ever replaced by the same proxy; what is stated of the contents of
    the table is stated of such runs. *)
Definition search_closure_take_item (c : SearchClosure) (item : SecretItem) : SearchClosure :=
  {| items := <[item_path item := item]> (items c);
     unlocked := unlocked c; locked := locked c; loading := loading c |}.

Definition set_loading (n : Z) (c : SearchClosure) : SearchClosure :=
  {| items := items c; unlocked := unlocked c; locked := locked c; loading := n |}.

Definition on_search_loaded (result : LoadResult) (op : SearchOp) : SearchOp :=
  let op := set_closure (set_loading (guint (loading (closure op) - 1)) (closure op)) op in
  let op := match load_error result with
            | Some e => g_simple_async_result_take_error e op
            | None => op
            end in
  let op := match load_item result with
            | Some item => set_closure (search_closure_take_item (closure op) item) op
            | None => op
            end in
  if loading (closure op) =? 0 then g_simple_async_result_complete op else op.

(** Modelled from the spec: [_secret_service_find_item_instance] is
    defined outside this file. It is the [resolve] of the object registry:
    the existing handle for [path] if one is live, else none, with no other
    effect. [self] is the service's table of live item instances. *)
Definition _secret_service_find_item_instance (self : gmap string SecretItem)
    (path : ObjectPath) : option SecretItem :=
  self !! path.
Arguments _secret_service_find_item_instance _ _ /.

Definition search_load_item_async (self : gmap string SecretItem)
    (op : SearchOp) (path : ObjectPath) : SearchOp :=
  match _secret_service_find_item_instance self path with
  | None =>
      let op := issue path op in
      set_closure (set_loading (guint (loading (closure op) + 1)) (closure op)) op
  | Some item => set_closure (search_closure_take_item (closure op) item) op
  end.

Definition on_search_paths (self : gmap string SecretItem)
    (reply : SearchPathsReply) (op : SearchOp) : Run SearchOp SearchOp :=
  let store u l op :=
    set_closure {| items := items (closure op); unlocked := u; locked := l;
                   loading := loading (closure op) |} op in
  let op := match reply with
            | PathsFound u l => store (Some u) (Some l) op
            | PathsFailed e u l =>
                g_simple_async_result_complete
                  (g_simple_async_result_take_error e (store u l op))
            end in
  match unlocked (closure op) with
  | None => NullDeref op
  | Some us =>
      let op := foldl (search_load_item_async self) op us in
      match locked (closure op) with
      | None => NullDeref op
      | Some ls =>
          let op := foldl (search_load_item_async self) op ls in
          Returned (if loading (closure op) =? 0
                    then g_simple_async_result_complete op else op)
      end
  end.

Definition search_closure_new : SearchClosure :=
  {| items := ∅; unlocked := None; locked := None; loading := 0 |}.

(** The main loop hands the load results to [on_search_loaded] one at a
    time, in the order they arrive. *)
Definition deliver_loads (results : list LoadResult) (op : SearchOp) : SearchOp :=
  foldl (λ op r, on_search_loaded r op) op results.

(** [secret_service_search], run until the loads in [arrivals] have been
    delivered. *)
Definition secret_service_search (self : gmap string SecretItem)
    (reply : SearchPathsReply) (arrivals : list LoadResult) : Run SearchOp SearchOp :=
  match on_search_paths self reply (operation_new search_closure_new) with
  | Returned op => Returned (deliver_loads arrivals op)
  | NullDeref op => NullDeref op
  end.

Definition search_finish_build (paths : list ObjectPath) (c : SearchClosure) : list SecretItem :=
  rev (foldl (λ results p,
                match items c !! p with
                | Some item => item :: results
                | None => results
                end) [] paths).

(** What [secret_service_search_finish] hands back: the return value, what
    it wrote to each out-parameter ([None]: not written), and the error. *)
Record SearchResult := {
  search_ok : bool;
  out_unlocked : option (list SecretItem);
  out_locked : option (list SecretItem);
  out_error : option GError
}.

(** [want_unlocked]/[want_locked]: whether the out-parameter is non-[NULL]. *)
Definition secret_service_search_finish (result : GSimpleAsyncResult SearchClosure)
    (want_unlocked want_locked : bool) : Run unit SearchResult :=
  match GSimpleAsyncResult.propagate_error result with
  | Some e => Returned {| search_ok := false; out_unlocked := None;
                          out_locked := None; out_error := Some e |}
  | None =>
      let c := GSimpleAsyncResult.op_res result in
      let build w paths :=
        if w : bool then
          match paths with
          | Some ps => Returned (Some (search_finish_build ps c))
          | None => NullDeref ()
          end
        else Returned None in
      match build want_unlocked (unlocked c) with
      | NullDeref s => NullDeref s
      | Returned u =>
          match build want_locked (locked c) with
          | NullDeref s => NullDeref s
          | Returned l => Returned {| search_ok := true; out_unlocked := u;
                                      out_locked := l; out_error := None |}
          end
      end
  end.

(** The loop of [service_load_items_sync], with the list built so far
    (newest first). *)
Fixpoint load_items_loop (self : gmap string SecretItem)
    (secret_item_new_sync : ObjectPath → LoadResult)
    (paths : list ObjectPath) (result : list SecretItem) : GError + list SecretItem :=
  match paths with
  | [] => inr (rev result)
  | path :: paths =>
      let item := match _secret_service_find_item_instance self path with
                  | Some item => Loaded item
                  | None => secret_item_new_sync path
                  end in
      match item with
      | LoadFailed e => inl e
      | Loaded item => load_items_loop self secret_item_new_sync paths (item :: result)
      end
  end.

(** [service_load_items_sync]: [inl] is the [FALSE] return with its error,
    [inr] the list stored in [*items]. *)
Definition service_load_items_sync (self : gmap string SecretItem)
    (secret_item_new_sync : ObjectPath → LoadResult)
    (paths : list ObjectPath) : GError + list SecretItem :=
  load_items_loop self secret_item_new_sync paths [].

(** [secret_service_search_sync]; [reply] is what
    [secret_service_search_for_paths_sync] returns. *)
Definition secret_service_search_sync (self : gmap string SecretItem)
    (reply : SearchPathsReply) (secret_item_new_sync : ObjectPath → LoadResult)
    (want_unlocked want_locked : bool) : Run unit SearchResult :=
  match reply with
  | PathsFailed e _ _ =>
      Returned {| search_ok := false; out_unlocked := None; out_locked := None;
                  out_error := Some e |}
  | PathsFound unlocked_paths locked_paths =>
      let r1 := if want_unlocked
                then match service_load_items_sync self secret_item_new_sync unlocked_paths with
                     | inr l => (true, Some l, None)
                     | inl e => (false, None, Some e)
                     end
                else (true, None, None) in
      let '(ret, u, err) := r1 in
      if ret && want_locked
      then match service_load_items_sync self secret_item_new_sync locked_paths with
           | inr l => Returned {| search_ok := true; out_unlocked := u;
                                  out_locked := Some l; out_error := None |}
           | inl e => Returned {| search_ok := false; out_unlocked := u;
                                  out_locked := None; out_error := Some e |}
           end
      else Returned {| search_ok := ret; out_unlocked := u; out_locked := None;
                       out_error := err |}
  end.

(** ** GetSecrets *)

Record SecretValue := { value_secret : list Byte.byte; value_content_type : string }.

(** One [(oayays)] of the [GetSecrets] reply. *)
Record EncryptedSecret := {
  secret_session : ObjectPath;
  secret_parameters : list Byte.byte;
  secret_ciphertext : list Byte.byte;
  secret_content_type : string
}.

Record GetClosure := {
  get_in : list ObjectPath;
  get_out : option (list (ObjectPath * EncryptedSecret));
  get_items : gmap string SecretItem
}.

Inductive GetRequest :=
| EnsureSession
| GetSecrets (paths : list ObjectPath) (session : ObjectPath).

Abbreviation GetOp := (Operation GetClosure GetRequest).

Inductive SessionReply :=
| SessionReady (session : ObjectPath)
| SessionFailed (e : GError).

Inductive GetSecretsReply :=
| SecretsReturned (out : list (ObjectPath * EncryptedSecret))
| GetSecretsFailed (e : GError).

Definition on_get_secrets_complete (reply : GetSecretsReply) (op : GetOp) : GetOp :=
  let store out op :=
    set_closure {| get_in := get_in (closure op); get_out := out;
                   get_items := get_items (closure op) |} op in
  g_simple_async_result_complete
    match reply with
    | SecretsReturned out => store (Some out) op
    | GetSecretsFailed e => g_simple_async_result_take_error e (store None op)
    end.

Definition on_get_secrets_session
    (g_dbus_proxy_call : list ObjectPath → ObjectPath → GetSecretsReply)
    (reply : SessionReply) (op : GetOp) : GetOp :=
  match reply with
  | SessionFailed e =>
      g_simple_async_result_complete (g_simple_async_result_take_error e op)
  | SessionReady session =>
      let paths := get_in (closure op) in
      call (GetSecrets paths session) (g_dbus_proxy_call paths session)
           on_get_secrets_complete op
  end.

(** The loop over the input list of [secret_service_get_secrets]: the table
    from path to item, and the array of paths. *)
Definition get_secrets_collect (l : list SecretItem)
    : gmap string SecretItem * list ObjectPath :=
  foldl (λ '(table, paths) item,
           (<[item_path item := item]> table, paths ++ [item_path item]))
        (∅, []) l.

Definition secret_service_get_secrets (l : list SecretItem)
    (ensure_session : SessionReply)
    (g_dbus_proxy_call : list ObjectPath → ObjectPath → GetSecretsReply) : GetOp :=
  let '(table, paths) := get_secrets_collect l in
  let op := operation_new {| get_in := paths; get_out := None; get_items := table |} in
  call EnsureSession ensure_session (on_get_secrets_session g_dbus_proxy_call) op.

Section Decode.
(** [_secret_session_decode_secret] for the session of the service:
    [None] is its [NULL] return. *)
Variable decode_secret : EncryptedSecret → option SecretValue.

Definition _secret_service_decode_get_secrets_all
    (out : list (ObjectPath * EncryptedSecret)) : gmap string SecretValue :=
  foldl (λ values '(path, variant),
           match decode_secret variant with
           | Some value => <[path := value]> values
           | None => values
           end) ∅ out.

(** [inl e]: [NULL] with the error; [inr m]: the table from item to
    value. *)
Definition secret_service_get_secrets_finish (result : GSimpleAsyncResult GetClosure)
    : Run unit (GError + gmap SecretItem SecretValue) :=
  match GSimpleAsyncResult.propagate_error result with
  | Some e => Returned (inl e)
  | None =>
      let c := GSimpleAsyncResult.op_res result in
      match get_out c with
      | None => NullDeref ()
      | Some out =>
          let with_paths := _secret_service_decode_get_secrets_all out in
          Returned (inr
            (map_fold (λ path value with_items,
                         match get_items c !! path with
                         | Some item => <[item := value]> with_items
                         | None => with_items
                         end) ∅ with_paths))
      end
  end.

(** [None]: the private loop never quits. *)
Definition secret_service_get_secrets_sync (l : list SecretItem)
    (ensure_session : SessionReply)
    (g_dbus_proxy_call : list ObjectPath → ObjectPath → GetSecretsReply)
    : option (Run unit (GError + gmap SecretItem SecretValue)) :=
  secret_service_get_secrets_finish
    <$> sync_result (secret_service_get_secrets l ensure_session g_dbus_proxy_call).
End Decode.

(** ** Lock / Unlock *)

Record XlockClosure := {
  prompt : option ObjectPath;
  objects : option (gmap string SecretItem);
  xlocked : list ObjectPath
}.

Inductive XlockRequest :=
| XlockCall (method : string) (paths : list ObjectPath)
| Prompt (prompt : ObjectPath).

Abbreviation XlockOp := (Operation XlockClosure XlockRequest).

(** Reply of the [Lock]/[Unlock] method: the [(aoo)] tuple, or an error. *)
Inductive XlockReply :=
| XlockReturned (xlocked : list ObjectPath) (prompt : ObjectPath)
| XlockFailed (e : GError).

(** [secret_service_prompt_finish]: the [ao] value it returns ([None]:
    [NULL], as for a dismissed prompt) and the error it sets. *)
Record PromptReply := {
  prompt_retval : option (list ObjectPath);
  prompt_error : option GError
}.

(** Modelled from the spec: [_secret_util_empty_path] is declared in
    [secret-private.h] and defined outside this file; it recognises the
    absent prompt path, the empty path and the protocol's "no prompt"
    sentinel ["/"]. *)
Definition _secret_util_empty_path (path : ObjectPath) : bool :=
  bool_decide (path = "") || bool_decide (path = "/").

Definition xlocked_add (paths : list ObjectPath) (c : XlockClosure) : XlockClosure :=
  {| prompt := prompt c; objects := objects c; xlocked := xlocked c ++ paths |}.

Definition on_xlock_prompted (reply : PromptReply) (op : XlockOp) : XlockOp :=
  let op := match prompt_error reply with
            | Some e => g_simple_async_result_take_error e op
            | None => op
            end in
  let op := match prompt_retval reply with
            | Some retval => set_closure (xlocked_add retval (closure op)) op
            | None => op
            end in
  g_simple_async_result_complete op.

Definition on_xlock_called (secret_service_prompt : ObjectPath → PromptReply)
    (reply : XlockReply) (op : XlockOp) : XlockOp :=
  match reply with
  | XlockFailed e =>
      g_simple_async_result_complete (g_simple_async_result_take_error e op)
  | XlockReturned xl pr =>
      if _secret_util_empty_path pr then
        g_simple_async_result_complete (set_closure (xlocked_add xl (closure op)) op)
      else
        let op := set_closure {| prompt := Some pr; objects := objects (closure op);
                                 xlocked := xlocked (closure op) |} op in
        call (Prompt pr) (secret_service_prompt pr) on_xlock_prompted op
  end.

(** [service_xlock_paths_async] up to the point where it returns [res]: the
    closure is in place and the method call is out; its reply reaches
    [on_xlock_called] only after the caller has finished with [res]. *)
Definition service_xlock_paths_async (method : string) (paths : list ObjectPath) : XlockOp :=
  issue (XlockCall method paths)
        (operation_new {| prompt := None; objects := None; xlocked := [] |}).

Definition xlock_collect (l : list SecretItem) : gmap string SecretItem * list ObjectPath :=
  foldl (λ '(table, paths) object,
           (<[item_path object := object]> table, paths ++ [item_path object]))
        (∅, []) l.

Definition service_xlock_async (method : string) (l : list SecretItem)
    (g_dbus_proxy_call : string → list ObjectPath → XlockReply)
    (secret_service_prompt : ObjectPath → PromptReply) : XlockOp :=
  let '(table, paths) := xlock_collect l in
  let op := service_xlock_paths_async method paths in
  let op := set_closure {| prompt := prompt (closure op); objects := Some table;
                           xlocked := xlocked (closure op) |} op in
  on_xlock_called secret_service_prompt (g_dbus_proxy_call method paths) op.

Definition secret_service_lock := service_xlock_async "Lock".
Definition secret_service_unlock := service_xlock_async "Unlock".

(** The return value, the array stored in [*xlocked] ([None]: nothing
    stored) and the error. *)
Definition service_xlock_paths_finish (result : GSimpleAsyncResult XlockClosure)
    (want_xlocked : bool) : Z * option (list ObjectPath) * option GError :=
  match GSimpleAsyncResult.propagate_error result with
  | Some e => (-1, None, Some e)
  | None =>
      let c := GSimpleAsyncResult.op_res result in
      let count := gint_of_guint (Z.of_nat (length (xlocked c))) in
      (count, if want_xlocked then Some (xlocked c) else None, None)
  end.

(** What a [GList *] cell of the caller holds. *)
Inductive GListCell :=
| Indeterminate (bits : Z)
| GList (l : list SecretItem).

Record XlockResult := {
  xlock_count : Z;
  xlock_cell : option GListCell;
  xlock_error : option GError
}.

(** [xlocked] is the out-parameter: [None] for [NULL], else the cell it
    points to as it is before the call; [xlock_cell] is the cell after. *)
Definition service_xlock_finish (result : GSimpleAsyncResult XlockClosure)
    (xlocked : option GListCell) : Run unit XlockResult :=
  let '(count, paths, err) :=
    service_xlock_paths_finish result (bool_decide (is_Some xlocked)) in
  match xlocked with
  | Some cell =>
      if 0 <? count then
        match paths with
        | None => NullDeref ()
        | Some paths =>
            let c := GSimpleAsyncResult.op_res result in
            let l := foldl (λ l path,
                              match objects c ≫= (λ table, table !! path) with
                              | Some object => object :: l
                              | None => l
                              end) [] paths in
            Returned {| xlock_count := count; xlock_cell := Some (GList (rev l));
                        xlock_error := err |}
        end
      else Returned {| xlock_count := count; xlock_cell := Some cell; xlock_error := err |}
  | None => Returned {| xlock_count := count; xlock_cell := None; xlock_error := err |}
  end.

Definition secret_service_lock_finish := service_xlock_finish.
Definition secret_service_unlock_finish := service_xlock_finish.

Definition secret_service_unlock_sync (l : list SecretItem)
    (g_dbus_proxy_call : string → list ObjectPath → XlockReply)
    (secret_service_prompt : ObjectPath → PromptReply)
    (unlocked : option GListCell) : option (Run unit XlockResult) :=
  (λ result, secret_service_unlock_finish result unlocked)
    <$> sync_result (secret_service_unlock l g_dbus_proxy_call secret_service_prompt).

Definition secret_service_lock_sync (l : list SecretItem)
    (g_dbus_proxy_call : string → list ObjectPath → XlockReply)
    (secret_service_prompt : ObjectPath → PromptReply)
    (locked : option GListCell) : option (Run unit XlockResult) :=
  (λ result, secret_service_lock_finish result locked)
    <$> sync_result (secret_service_lock l g_dbus_proxy_call secret_service_prompt).

(** ** Lookup *)

Record LookupClosure := { value : option SecretValue }.

Inductive LookupRequest :=
| SearchForPaths
| GetSecretForPath (path : ObjectPath)
| UnlockPaths (paths : list ObjectPath).

Abbreviation LookupOp := (Operation LookupClosure LookupRequest).

(** [secret_service_get_secret_for_path_finish]. *)
Inductive SecretReply :=
| SecretFetched (value : option SecretValue)
| SecretFailed (e : GError).

(** [secret_service_unlock_paths_finish]: the array stored in [unlocked]
    ([None]: the cell is left [NULL]), or the error. *)
Inductive UnlockPathsReply :=
| PathsUnlocked (unlocked : option (list ObjectPath))
| UnlockFailed (e : GError).

(** The service as the lookup chain sees it. *)
Record LookupService := {
  search_for_paths : SearchPathsReply;
  unlock_paths : list ObjectPath → UnlockPathsReply;
  get_secret_for_path : ObjectPath → SecretReply
}.

Definition on_lookup_get_secret (reply : SecretReply) (op : LookupOp) : LookupOp :=
  g_simple_async_result_complete
    match reply with
    | SecretFetched v => set_closure {| value := v |} op
    | SecretFailed e => g_simple_async_result_take_error e (set_closure {| value := None |} op)
    end.

Definition on_lookup_unlocked (self : LookupService) (reply : UnlockPathsReply)
    (op : LookupOp) : LookupOp :=
  match reply with
  | UnlockFailed e =>
      g_simple_async_result_complete (g_simple_async_result_take_error e op)
  | PathsUnlocked (Some (path :: _)) =>
      call (GetSecretForPath path) (get_secret_for_path self path) on_lookup_get_secret op
  | PathsUnlocked _ => g_simple_async_result_complete op
  end.

Definition on_lookup_searched (self : LookupService) (reply : SearchPathsReply)
    (op : LookupOp) : LookupOp :=
  match reply with
  | PathsFailed e _ _ =>
      g_simple_async_result_complete (g_simple_async_result_take_error e op)
  | PathsFound (path :: _) _ =>
      call (GetSecretForPath path) (get_secret_for_path self path) on_lookup_get_secret op
  | PathsFound [] (path :: _) =>
      call (UnlockPaths [path]) (unlock_paths self [path]) (on_lookup_unlocked self) op
  | PathsFound [] [] => g_simple_async_result_complete op
  end.

(** [attributes_valid]: the outcome of the schema check
    ([schema == NULL || _secret_attributes_validate (schema, attributes)]);
    when it fails the function returns before creating the operation. *)
Definition secret_service_lookup (self : LookupService) (attributes_valid : bool)
    : option LookupOp :=
  if attributes_valid then
    Some (call SearchForPaths (search_for_paths self) (on_lookup_searched self)
               (operation_new {| value := None |}))
  else None.

(** [inl e]: [NULL] with the error; [inr v]: the value, [None] when no
    secret was found. *)
Definition secret_service_lookup_finish (result : GSimpleAsyncResult LookupClosure)
    : GError + option SecretValue :=
  match GSimpleAsyncResult.propagate_error result with
  | Some e => inl e
  | None => inr (value (GSimpleAsyncResult.op_res result))
  end.

(** Outer [None]: the private loop never quits. With invalid attributes the
    function returns [NULL] and leaves the error unset. *)
Definition secret_service_lookup_sync (self : LookupService) (attributes_valid : bool)
    : option (GError + option SecretValue) :=
  if attributes_valid then
    op ← secret_service_lookup self attributes_valid;
    secret_service_lookup_finish <$> sync_result op
  else Some (inr None).

(** ** Auxiliary notions used in the statements *)

(** The paths of [ps] with no live instance, in order: those a load is
    requested for. *)
Definition unresolved (self : gmap string SecretItem) (ps : list ObjectPath) : list ObjectPath :=
  filter (λ p, self !! p = None) ps.

(** The table after the live instances of [ps] have been taken. *)
Definition take_resolved (self : gmap string SecretItem) (m : gmap string SecretItem)
    (ps : list ObjectPath) : gmap string SecretItem :=
  foldl (λ m p, match self !! p with
                | Some item => <[item_path item := item]> m
                | None => m
                end) m ps.

(** The table after the items of the load results [rs] have been taken. *)
Definition take_loaded (m : gmap string SecretItem) (rs : list LoadResult)
    : gmap string SecretItem :=
  foldl (λ m r, match load_item r with
                | Some item => <[item_path item := item]> m
                | None => m
                end) m rs.

(** The error slot after the results [rs] have been delivered. *)
Definition stored_error (e0 : option GError) (rs : list LoadResult) : option GError :=
  foldl (λ e r, match load_error r with Some e' => Some e' | None => e end) e0 rs.

(** Every live instance is registered under its own object path. *)
Definition registry_wf (self : gmap string SecretItem) : Prop :=
  ∀ p item, self !! p = Some item → item_path item = p.

(** A load for path [p] yields a proxy for [p]. *)
Definition loader_wf (item_new : ObjectPath → LoadResult) : Prop :=
  ∀ p item, item_new p = Loaded item → item_path item = p.

(** The handle the chain ends up with for [p]: the live instance, else the
    loaded one. *)
Definition resolve (self : gmap string SecretItem) (item_new : ObjectPath → LoadResult)
    (p : ObjectPath) : option SecretItem :=
  match self !! p with
  | Some item => Some item
  | None => load_item (item_new p)
  end.

(** Every entry of the table is filed under the object path of its item. *)
Definition table_wf (m : gmap string SecretItem) : Prop :=
  ∀ p item, m !! p = Some item → item_path item = p.

(** The table from path to handle that the loop over an input list of
    handles builds: a later handle replaces an earlier one of the same
    path. *)
Definition items_table (l : list SecretItem) : gmap string SecretItem :=
  foldl (λ m item, <[item_path item := item]> m) ∅ l.

(** No two handles of the list stand for the same path. *)
Definition one_handle_per_path (l : list SecretItem) : Prop :=
  ∀ h h', h ∈ l → h' ∈ l → item_path h = item_path h' → h = h'.

(** The reply has at most one entry per path. *)
Definition one_entry_per_path {X : Type} (out : list (ObjectPath * X)) : Prop :=
  ∀ p x x', (p, x) ∈ out → (p, x') ∈ out → x = x'.

(** The paths the service reports as transitioned at the end of a
    lock/unlock chain: those of the method reply when there is no prompt,
    else those the prompt returns (none when it is dismissed). *)
Definition transitioned (reply : XlockReply) (secret_service_prompt : ObjectPath → PromptReply)
    : list ObjectPath :=
  match reply with
  | XlockFailed _ => []
  | XlockReturned xl pr =>
      if _secret_util_empty_path pr then xl
      else default [] (prompt_retval (secret_service_prompt pr))
  end.

(** The error of a lock/unlock chain: that of the method call, else that
    of the prompt. *)
Definition xlock_failure (reply : XlockReply) (secret_service_prompt : ObjectPath → PromptReply)
    : option GError :=
  match reply with
  | XlockFailed e => Some e
  | XlockReturned _ pr =>
      if _secret_util_empty_path pr then None
      else prompt_error (secret_service_prompt pr)
  end.

(** One step of a loop that files the entry [g x], if any, in a table. *)
Definition insert_entry {X V : Type} (g : X → option (string * V))
    (m : gmap string V) (x : X) : gmap string V :=
  match g x with Some (k, v) => <[k := v]> m | None => m end.

(** The entry of the table of values that one entry of the reply gives. *)
Definition decoded_entry (decode_secret : EncryptedSecret → option SecretValue)
    (e : ObjectPath * EncryptedSecret) : option (string * SecretValue) :=
  match decode_secret e.2 with Some v => Some (e.1, v) | None => None end.

(** What the lookup chain yields for the reply of the secret fetch. *)
Definition secret_outcome (reply : SecretReply) : GError + option SecretValue :=
  match reply with
  | SecretFetched v => inr v
  | SecretFailed e => inl e
  end.

(** Values for the worked examples. *)
Module Sample.
Definition io_error : GError := {| error_code := 1; error_message := "load failed" |}.
Definition cancelled : GError := {| error_code := 19; error_message := "cancelled" |}.
Definition item (n : positive) (p : ObjectPath) : SecretItem :=
  {| item_instance := n; item_path := p |}.
(** One live instance, for ["/c/1"]. *)
Definition registry : gmap string SecretItem := {[ "/c/1" := item 1 "/c/1" ]}.
(** Every load succeeds. *)
Definition loader (p : ObjectPath) : LoadResult := Loaded (item 9 p).
(** The loads of ["/c/2"], ["/c/4"] and ["/c/5"] fail. *)
Definition not_found : GError := {| error_code := 2; error_message := "no such object" |}.
Definition failing_loader (p : ObjectPath) : LoadResult :=
  if decide (p = "/c/2") then LoadFailed io_error
  else if decide (p = "/c/4") then LoadFailed cancelled
  else if decide (p = "/c/5") then LoadFailed not_found
  else Loaded (item 9 p).
Definition encrypted (bytes : list Byte.byte) : EncryptedSecret :=
  {| secret_session := "/session/1"; secret_parameters := [];
     secret_ciphertext := bytes; secret_content_type := "text/plain" |}.
(** A session whose cipher is the identity, and which rejects an empty
    ciphertext. *)
Definition decode (x : EncryptedSecret) : option SecretValue :=
  match secret_ciphertext x with
  | [] => None
  | bytes => Some {| value_secret := bytes;
                     value_content_type := secret_content_type x |}
  end.
Definition plain (bytes : list Byte.byte) : SecretValue :=
  {| value_secret := bytes; value_content_type := "text/plain" |}.
(** The service unlocks ["/c/1"] and ["/c/9"] without a prompt. *)
Definition unlock_reply (_ : string) (_ : list ObjectPath) : XlockReply :=
  XlockReturned ["/c/9"; "/c/1"] "/".
(** The service asks for a prompt, which the user dismisses. *)
Definition prompting_reply (_ : string) (_ : list ObjectPath) : XlockReply :=
  XlockReturned [] "/prompt/7".
Definition dismissed (_ : ObjectPath) : PromptReply :=
  {| prompt_retval := None; prompt_error := None |}.
(** A service with one locked match, which unlocking makes available. *)
Definition locked_service : LookupService :=
  {| search_for_paths := PathsFound [] ["/c/6"; "/c/7"];
     unlock_paths := λ paths, PathsUnlocked (Some paths);
     get_secret_for_path := λ p,
       if decide (p = "/c/6") then SecretFetched (Some (plain [Byte.x36]))
       else SecretFetched None |}.
End Sample.

(** ** The single-secret decoder *)

(** [_secret_service_decode_get_secrets_first]: the body of the loop ends
    in [break], so only the first entry of the reply is looked at. *)
Definition _secret_service_decode_get_secrets_first
    (decode_secret : EncryptedSecret → option SecretValue)
    (out : list (ObjectPath * EncryptedSecret)) : option SecretValue :=
  match out with
  | [] => None
  | (path, variant) :: _ => decode_secret variant
  end.

(** ** Remove *)

Record DeleteClosure := { delete_prompt : option ObjectPath; deleted : bool }.

Inductive DeleteRequest :=
| DeleteSearch
| DeletePath (path : ObjectPath) (is_an_item : bool).

Abbreviation DeleteOp := (Operation DeleteClosure DeleteRequest).

(** [secret_service_delete_path_finish]: the value it returns, or the
    error it sets (it then returns [FALSE]). *)
Inductive DeleteReply :=
| DeleteReturned (ret : bool)
| DeleteFailed (e : GError).

(** What a callback that ends by freeing its local arrays leaves behind:
    it returned, or it handed [g_strfreev] a variable that was never
    assigned. *)
Inductive Freed (A : Type) :=
| Clean (a : A)
| FreedIndeterminate (a : A).
Arguments Clean {A} a.
Arguments FreedIndeterminate {A} a.

(** The service as the remove chain sees it. *)
Record DeleteService := {
  delete_search_for_paths : SearchPathsReply;
  delete_path : ObjectPath → bool → DeleteReply
}.

Definition set_deleted (b : bool) (op : DeleteOp) : DeleteOp :=
  set_closure {| delete_prompt := delete_prompt (closure op); deleted := b |} op.

Definition on_delete_password_complete (reply : DeleteReply) (op : DeleteOp) : DeleteOp :=
  g_simple_async_result_complete
    match reply with
    | DeleteReturned ret => set_deleted ret op
    | DeleteFailed e => g_simple_async_result_take_error e (set_deleted false op)
    end.

(** The locals [locked] and [unlocked] of [on_search_delete_password] have
    no initialiser: each holds an array only if the finish call stored
    one, and both are passed to [g_strfreev] at the end. *)
Definition on_search_delete_password (self : DeleteService) (reply : SearchPathsReply)
    (op : DeleteOp) : Freed DeleteOp :=
  let delete path op :=
    call (DeletePath path true) (delete_path self path true)
         on_delete_password_complete (set_deleted true op) in
  match reply with
  | PathsFailed e u l =>
      let op := g_simple_async_result_complete (g_simple_async_result_take_error e op) in
      match u, l with
      | Some _, Some _ => Clean op
      | _, _ => FreedIndeterminate op
      end
  | PathsFound (path :: _) _ => Clean (delete path op)
  | PathsFound [] (path :: _) => Clean (delete path op)
  | PathsFound [] [] => Clean (g_simple_async_result_complete (set_deleted false op))
  end.

Definition secret_service_remove (self : DeleteService) (attributes_valid : bool)
    : option (Freed DeleteOp) :=
  if attributes_valid then
    Some (on_search_delete_password self (delete_search_for_paths self)
            (issue DeleteSearch (operation_new {| delete_prompt := None; deleted := false |})))
  else None.

(** [inl e]: [FALSE] with the error; [inr b]: the value returned. *)
Definition secret_service_remove_finish (result : GSimpleAsyncResult DeleteClosure)
    : GError + bool :=
  match GSimpleAsyncResult.propagate_error result with
  | Some e => inl e
  | None => inr (deleted (GSimpleAsyncResult.op_res result))
  end.

(** ** ReadAlias *)

Record ReadClosure := { collection : option SecretItem }.

Inductive ReadRequest :=
| ReadAliasPath (alias : string)
| CollectionNew (path : ObjectPath).

Abbreviation ReadOp := (Operation ReadClosure ReadRequest).

(** [secret_service_read_alias_path_finish] / [_sync]: the collection path
    ([None]: [NULL], no collection for the alias), or the error. *)
Inductive AliasPathReply :=
| AliasPath (collection_path : option ObjectPath)
| AliasFailed (e : GError).

(** The service as the read-alias chain sees it: the reply for an alias,
    the table of live collection instances, and the result of loading a
    collection. *)
Record AliasService := {
  read_alias_path : string → AliasPathReply;
  collections : gmap string SecretItem;
  secret_collection_new : ObjectPath → LoadResult
}.

(** Modelled from the spec: [_secret_service_find_collection_instance] is
    defined outside this file. It is the [resolve] of the object registry
    for collections: the existing handle for [path] if one is live, else
    none. *)
Definition _secret_service_find_collection_instance (self : AliasService)
    (path : ObjectPath) : option SecretItem :=
  collections self !! path.

Definition on_read_alias_collection (result : LoadResult) (op : ReadOp) : ReadOp :=
  let op := set_closure {| collection := load_item result |} op in
  let op := match load_error result with
            | Some e => g_simple_async_result_take_error e op
            | None => op
            end in
  g_simple_async_result_complete op.

Definition on_read_alias_path (self : AliasService) (reply : AliasPathReply)
    (op : ReadOp) : ReadOp :=
  match reply with
  | AliasPath None => g_simple_async_result_complete op
  | AliasPath (Some collection_path) =>
      let op := set_closure
                  {| collection := _secret_service_find_collection_instance self collection_path |}
                  op in
      match collection (closure op) with
      | Some _ => g_simple_async_result_complete op
      | None =>
          call (CollectionNew collection_path) (secret_collection_new self collection_path)
               on_read_alias_collection op
      end
  | AliasFailed e =>
      g_simple_async_result_complete (g_simple_async_result_take_error e op)
  end.

Definition secret_service_read_alias (self : AliasService) (alias : string) : ReadOp :=
  call (ReadAliasPath alias) (read_alias_path self alias) (on_read_alias_path self)
       (operation_new {| collection := None |}).

(** [inl e]: [NULL] with the error; [inr c]: the collection, [None] when
    the alias has none. *)
Definition secret_service_read_alias_finish (result : GSimpleAsyncResult ReadClosure)
    : GError + option SecretItem :=
  match GSimpleAsyncResult.propagate_error result with
  | Some e => inl e
  | None => inr (collection (GSimpleAsyncResult.op_res result))
  end.

(** [secret_service_read_alias_sync] does not run the chain: it calls
    [secret_service_read_alias_path_sync] and then
    [secret_collection_new_sync]. *)
Definition secret_service_read_alias_sync (self : AliasService) (alias : string)
    : GError + option SecretItem :=
  match read_alias_path self alias with
  | AliasFailed e => inl e
  | AliasPath None => inr None
  | AliasPath (Some collection_path) =>
      match _secret_service_find_collection_instance self collection_path with
      | Some c => inr (Some c)
      | None =>
          match secret_collection_new self collection_path with
          | Loaded c => inr (Some c)
          | LoadFailed e => inl e
          end
      end
  end.

(** ** The blocking remove *)

Definition freed_map {A B : Type} (f : A → B) (x : Freed A) : Freed B :=
  match x with
  | Clean a => Clean (f a)
  | FreedIndeterminate a => FreedIndeterminate (f a)
  end.

(** The result the private loop was quit with, when the callback that ran
    the completion came to its end or to the [g_strfreev] of an unassigned
    local. *)
Definition freed_sync_result {C R : Type} (x : Freed (Operation C R))
    : option (Freed (GSimpleAsyncResult C)) :=
  match x with
  | Clean op => Clean <$> sync_result op
  | FreedIndeterminate op => FreedIndeterminate <$> sync_result op
  end.

(** Outer [None]: the private loop never quits. With invalid attributes the
    function returns [FALSE] and leaves the error unset. *)
Definition secret_service_remove_sync (self : DeleteService) (attributes_valid : bool)
    : option (Freed (GError + bool)) :=
  if attributes_valid then
    r ← secret_service_remove self attributes_valid;
    freed_map secret_service_remove_finish <$> freed_sync_result r
  else Some (Clean (inr false)).

(** ** Store *)

Record SecretSchema := { schema_name : string; schema_flags : Z }.

(** A value of the property table of the new item: the label, or
    [PropAttributes attributes name] for the value
    [_secret_attributes_to_variant (attributes, name)]. *)
Inductive PropertyValue :=
| PropLabel (label : string)
| PropAttributes (attributes : gmap string string) (name : option string).

Record CreateRequest := {
  create_collection_path : option ObjectPath;
  create_properties : gmap string PropertyValue;
  create_value : SecretValue;
  create_replace : bool
}.

(** Result of the create-item call: the path of the item ([None]: no path
    was produced), or the error. *)
Inductive CreateReply :=
| ItemCreated (path : option ObjectPath)
| CreateFailed (e : GError).

Record CreateClosure := { created : option ObjectPath }.

Abbreviation CreateOp := (Operation CreateClosure CreateRequest).

(** Modelled from the spec: [secret_service_create_item_path] and its
    finish function are defined outside this file. It is a single
    create-item call against the target collection, which follows any
    prompt itself; its chain completes once, and its finish function
    yields the path of the item, or the error. *)
Definition secret_service_create_item_path (create_item : CreateRequest → CreateReply)
    (request : CreateRequest) : CreateOp :=
  call request (create_item request)
       (λ reply op,
          g_simple_async_result_complete
            match reply with
            | ItemCreated path => set_closure {| created := path |} op
            | CreateFailed e => g_simple_async_result_take_error e op
            end)
       (operation_new {| created := None |}).

Definition secret_service_create_item_path_finish (result : GSimpleAsyncResult CreateClosure)
    : GError + option ObjectPath :=
  match GSimpleAsyncResult.propagate_error result with
  | Some e => inl e
  | None => inr (created (GSimpleAsyncResult.op_res result))
  end.

(** [SECRET_ITEM_INTERFACE] is the interface name the two property keys
    are built from; [validate] is [_secret_attributes_validate]. The
    function returns before any call ([None]) when a schema is given and
    the attributes do not validate. The callback of the caller is handed to
    the create-item call, so the chain is that call's. *)
Definition secret_service_store (SECRET_ITEM_INTERFACE : string)
    (validate : SecretSchema → gmap string string → bool)
    (create_item : CreateRequest → CreateReply)
    (schema : option SecretSchema) (attributes : gmap string string)
    (collection_path : option ObjectPath) (label : string) (value : SecretValue)
    : option CreateOp :=
  if match schema with
     | Some schema => negb (validate schema attributes)
     | None => false
     end
  then None
  else
    let properties : gmap string PropertyValue := ∅ in
    let properties := <[SECRET_ITEM_INTERFACE +:+ ".Label" := PropLabel label]> properties in
    let name := match schema with
                | None => None
                | Some schema => Some (schema_name schema)
                end in
    let properties :=
      <[SECRET_ITEM_INTERFACE +:+ ".Attributes" := PropAttributes attributes name]>
        properties in
    Some (secret_service_create_item_path create_item
            {| create_collection_path := collection_path;
               create_properties := properties;
               create_value := value;
               create_replace := true |}).

(** [inl e]: [FALSE] with the error; [inr b]: whether a path came back. *)
Definition secret_service_store_finish (result : GSimpleAsyncResult CreateClosure)
    : GError + bool :=
  match secret_service_create_item_path_finish result with
  | inl e => inl e
  | inr path => inr (bool_decide (is_Some path))
  end.

(** Outer [None]: the private loop never quits. With attributes that do
    not validate the function returns [FALSE] and leaves the error unset. *)
Definition secret_service_store_sync (SECRET_ITEM_INTERFACE : string)
    (validate : SecretSchema → gmap string string → bool)
    (create_item : CreateRequest → CreateReply)
    (schema : option SecretSchema) (attributes : gmap string string)
    (collection_path : option ObjectPath) (label : string) (value : SecretValue)
    : option (GError + bool) :=
  if match schema with
     | Some schema => negb (validate schema attributes)
     | None => false
     end
  then Some (inr false)
  else
    op ← secret_service_store SECRET_ITEM_INTERFACE validate create_item schema attributes
           collection_path label value;
    secret_service_store_finish <$> sync_result op.

(** ** SetAlias *)

Record SetAliasRequest := {
  set_alias_name : string;
  set_alias_collection_path : option ObjectPath
}.

Inductive SetAliasReply :=
| AliasSet
| SetAliasFailed (e : GError).

Abbreviation SetAliasOp := (Operation unit SetAliasRequest).

(** Modelled from the spec: [secret_service_set_alias_path] and its finish
    function are defined outside this file. It is a single remote call
    taking the alias name and a collection path, absent to unset the
    alias; its chain completes once, and its finish function returns
    [TRUE], or [FALSE] with the error. *)
Definition secret_service_set_alias_path (set_alias : SetAliasRequest → SetAliasReply)
    (request : SetAliasRequest) : SetAliasOp :=
  call request (set_alias request)
       (λ reply op,
          g_simple_async_result_complete
            match reply with
            | AliasSet => op
            | SetAliasFailed e => g_simple_async_result_take_error e op
            end)
       (operation_new ()).

Definition secret_service_set_alias_path_finish (result : GSimpleAsyncResult unit)
    : GError + bool :=
  match GSimpleAsyncResult.propagate_error result with
  | Some e => inl e
  | None => inr true
  end.

(** [collection]: the collection proxy, [None] for [NULL]. *)
Definition secret_service_set_alias (set_alias : SetAliasRequest → SetAliasReply)
    (alias : string) (collection : option SecretItem) : SetAliasOp :=
  let collection_path := match collection with
                         | Some collection => Some (item_path collection)
                         | None => None
                         end in
  secret_service_set_alias_path set_alias
    {| set_alias_name := alias; set_alias_collection_path := collection_path |}.

Definition secret_service_set_alias_finish := secret_service_set_alias_path_finish.

(** [None]: the private loop never quits. *)
Definition secret_service_set_alias_sync (set_alias : SetAliasRequest → SetAliasReply)
    (alias : string) (collection : option SecretItem) : option (GError + bool) :=
  secret_service_set_alias_finish
    <$> sync_result (secret_service_set_alias set_alias alias collection).

(** ** Further notions used in the statements *)

(** The path the lookup chain acts on first after the search, and the path
    the remove chain deletes: the first unlocked match, else the first
    locked one. *)
Definition first_match (reply : SearchPathsReply) : option ObjectPath :=
  match reply with
  | PathsFound (p :: _) _ => Some p
  | PathsFound [] (q :: _) => Some q
  | _ => None
  end.

(** More values for the worked examples. *)
Module Fixture.
Definition ha : SecretItem := Sample.item 1 "/c/1".
Definition ha' : SecretItem := Sample.item 5 "/c/1".
Definition hb : SecretItem := Sample.item 2 "/c/2".
(** A table with an entry for ["/c/1"] and one for ["/c/3"]. *)
Definition closure13 : SearchClosure :=
  {| items := {[ "/c/1" := ha; "/c/3" := Sample.item 3 "/c/3" ]};
     unlocked := None; locked := None; loading := 0 |}.
(** The service answers with a prompt for ["/prompt/7"], although it
    reports [xl] as transitioned already. *)
Definition prompted_reply (xl : list ObjectPath) (_ : string) (_ : list ObjectPath)
    : XlockReply :=
  XlockReturned xl "/prompt/7".
Definition confirmed (_ : ObjectPath) : PromptReply :=
  {| prompt_retval := Some ["/c/2"]; prompt_error := None |}.
(** Two unlocked matches and a locked one. *)
Definition matching_service : DeleteService :=
  {| delete_search_for_paths := PathsFound ["/c/2"; "/c/3"] ["/c/4"];
     delete_path := λ _ _, DeleteReturned true |}.
(** The alias ["default"] names the live collection ["/coll/login"], the
    alias ["session"] a collection that has to be loaded. *)
Definition alias_service : AliasService :=
  {| read_alias_path := λ alias,
       if decide (alias = "default") then AliasPath (Some "/coll/login")
       else if decide (alias = "session") then AliasPath (Some "/coll/session")
       else AliasPath None;
     collections := {[ "/coll/login" := Sample.item 4 "/coll/login" ]};
     secret_collection_new := Sample.loader |}.
End Fixture.

(** ** Search: the fan-out and the delivery of the loads *)

Lemma guint_succ k : guint (guint k + 1) = guint (k + 1).
Proof. unfold guint. by rewrite Zplus_mod_idemp_l. Qed.

Lemma guint_small k : 0 ≤ k < 2 ^ 32 → guint k = k.
Proof. intros. unfold guint. by apply Z.mod_small. Qed.

Lemma fan_out self ps : ∀ (op : SearchOp) k,
  loading (closure op) = guint k →
  let op' := foldl (search_load_item_async self) op ps in
  GSimpleAsyncResult.error (res op') = GSimpleAsyncResult.error (res op)
  ∧ callbacks op' = callbacks op
  ∧ unlocked (closure op') = unlocked (closure op)
  ∧ locked (closure op') = locked (closure op)
  ∧ issued op' = issued op ++ unresolved self ps
  ∧ loading (closure op') = guint (k + Z.of_nat (length (unresolved self ps)))
  ∧ items (closure op') = take_resolved self (items (closure op)) ps.
Proof.
  induction ps as [|p ps IH]; intros op k Hk; simpl.
  - rewrite app_nil_r, Z.add_0_r. done.
  - unfold unresolved. rewrite filter_cons. fold (unresolved self ps).
    unfold search_load_item_async at 2 4 6 8 10 12 14.
    unfold _secret_service_find_item_instance.
    destruct (self !! p) as [item|] eqn:Hp.
    + rewrite decide_False by done.
      destruct (IH (set_closure (search_closure_take_item (closure op) item) op) k)
        as (?&?&?&?&?&?&?); [done|]. done.
    + rewrite decide_True by done.
      destruct (IH (set_closure (set_loading (guint (loading (closure (issue p op)) + 1))
                                   (closure (issue p op))) (issue p op)) (k + 1))
        as (?&?&?&?&Hi&Hl&?).
      { simpl. change (closure (issue p op)) with (closure op).
        rewrite Hk. apply guint_succ. }
      repeat split; try done.
      * rewrite Hi. simpl. by rewrite <- app_assoc.
      * rewrite Hl. f_equal. simpl length. lia.
Qed.

Lemma on_search_loaded_step r (op : SearchOp) :
  0 < loading (closure op) < 2 ^ 32 →
  let op' := on_search_loaded r op in
  GSimpleAsyncResult.error (res op') = stored_error (GSimpleAsyncResult.error (res op)) [r]
  ∧ items (closure op') = take_loaded (items (closure op)) [r]
  ∧ unlocked (closure op') = unlocked (closure op)
  ∧ locked (closure op') = locked (closure op)
  ∧ issued op' = issued op
  ∧ loading (closure op') = loading (closure op) - 1
  ∧ callbacks op' = if loading (closure op) =? 1
                    then callbacks op ++ [res op'] else callbacks op.
Proof.
  intros Hn. unfold on_search_loaded.
  destruct r as [item|e]; simpl;
    rewrite guint_small by lia;
    destruct (Z.eqb_spec (loading (closure op) - 1) 0) as [H0|H0];
    destruct (Z.eqb_spec (loading (closure op)) 1); try lia; done.
Qed.

Lemma deliver_all rs : ∀ op : SearchOp,
  rs ≠ [] →
  loading (closure op) = Z.of_nat (length rs) →
  Z.of_nat (length rs) < 2 ^ 32 →
  let op' := deliver_loads rs op in
  callbacks op' = callbacks op ++ [res op']
  ∧ GSimpleAsyncResult.error (res op') = stored_error (GSimpleAsyncResult.error (res op)) rs
  ∧ items (closure op') = take_loaded (items (closure op)) rs
  ∧ unlocked (closure op') = unlocked (closure op)
  ∧ locked (closure op') = locked (closure op)
  ∧ issued op' = issued op.
Proof.
  induction rs as [|r rs IH]; intros op Hne Hl Hlt; [done|].
  destruct (on_search_loaded_step r op) as (He&Hi&Hu&Hk&Hs&Hn&Hc).
  { rewrite Hl. simpl length in *. lia. }
  destruct rs as [|r' rs].
  - simpl. rewrite Hl in Hc. simpl in Hc. done.
  - specialize (IH (on_search_loaded r op)).
    destruct IH as (Hc'&He'&Hi'&Hu'&Hk'&Hs'); [done| | |].
    { rewrite Hn, Hl. simpl length. lia. }
    { simpl length in *. lia. }
    change (deliver_loads (r :: r' :: rs) op)
      with (deliver_loads (r' :: rs) (on_search_loaded r op)).
    cbv zeta. rewrite Hc', He', Hi', Hu', Hk', Hs', He, Hi, Hu, Hk, Hs.
    repeat split; try done.
    rewrite Hc, Hl.
    destruct (Z.eqb_spec (Z.of_nat (length (r :: r' :: rs))) 1) as [H1|H1]; [|done].
    simpl length in H1. lia.
Qed.

Lemma stored_error_last rs :
  stored_error None rs = last (omap load_error rs).
Proof.
  cut (∀ e0, stored_error e0 rs = from_option Some e0 (last (omap load_error rs))).
  { intros H. rewrite H. by destruct (last _). }
  induction rs as [|r rs IH]; intros e0; [done|].
  change (stored_error e0 (r :: rs))
    with (stored_error (match load_error r with Some e' => Some e' | None => e0 end) rs).
  rewrite IH. simpl. destruct (load_error r) as [e|]; [|done].
  rewrite last_cons. by destruct (last _).
Qed.

Lemma search_finish_build_omap paths c :
  search_finish_build paths c = omap (λ p, items c !! p) paths.
Proof.
  unfold search_finish_build.
  cut (∀ acc, rev (foldl (λ results p, match items c !! p with
                                       | Some item => item :: results
                                       | None => results
                                       end) acc paths)
              = rev acc ++ omap (λ p, items c !! p) paths).
  { intros H. by rewrite H. }
  induction paths as [|p ps IH]; intros acc; simpl.
  - by rewrite app_nil_r.
  - rewrite IH. destruct (items c !! p); [|done].
    simpl. by rewrite <- app_assoc.
Qed.

(** The chain after a successful path search, once every requested load
    has been delivered. *)
Lemma search_found self u l rs :
  length rs = length (unresolved self (u ++ l)) →
  Z.of_nat (length rs) < 2 ^ 32 →
  ∃ op, secret_service_search self (PathsFound u l) rs = Returned op
    ∧ callbacks op = [res op]
    ∧ GSimpleAsyncResult.error (res op) = stored_error None rs
    ∧ items (closure op) = take_loaded (take_resolved self ∅ (u ++ l)) rs
    ∧ unlocked (closure op) = Some u
    ∧ locked (closure op) = Some l
    ∧ issued op = unresolved self (u ++ l).
Proof.
  intros Hlen Hlt. unfold secret_service_search, on_search_paths.
  set (op0 := set_closure _ (operation_new search_closure_new)).
  change (unlocked (closure op0)) with (Some u).
  destruct (fan_out self u op0 0) as (He1&Hc1&Hu1&Hk1&Hi1&Hl1&Hm1); [done|].
  set (op1 := foldl (search_load_item_async self) op0 u) in *.
  rewrite Hk1. change (locked (closure op0)) with (Some l).
  destruct (fan_out self l op1 _ Hl1) as (He2&Hc2&Hu2&Hk2&Hi2&Hl2&Hm2).
  set (op2 := foldl (search_load_item_async self) op1 l) in *.
  assert (Hiss : issued op2 = unresolved self (u ++ l)).
  { rewrite Hi2, Hi1. unfold unresolved. by rewrite filter_app. }
  assert (Hitems : items (closure op2) = take_resolved self ∅ (u ++ l)).
  { rewrite Hm2, Hm1. unfold take_resolved. by rewrite foldl_app. }
  assert (Hload : loading (closure op2) = Z.of_nat (length rs)).
  { rewrite Hl2, Hlen. unfold unresolved. rewrite filter_app, length_app.
    rewrite guint_small; [lia|].
    rewrite Hlen in Hlt. unfold unresolved in Hlt.
    rewrite filter_app, length_app in Hlt. lia. }
  destruct rs as [|r rs].
  - destruct (Z.eqb_spec (loading (closure op2)) 0) as [_|H0]; [|done].
    eexists. split; [done|].
    change (callbacks op2 ++ [res op2] = [res op2]
            ∧ GSimpleAsyncResult.error (res op2) = None
            ∧ items (closure op2) = take_resolved self ∅ (u ++ l)
            ∧ unlocked (closure op2) = Some u
            ∧ locked (closure op2) = Some l
            ∧ issued op2 = unresolved self (u ++ l)).
    by rewrite Hc2, Hc1, He2, He1, Hu2, Hu1, Hk2, Hk1, Hitems, Hiss.
  - destruct (Z.eqb_spec (loading (closure op2)) 0) as [H0|_].
    { rewrite Hload in H0. simpl length in H0. lia. }
    destruct (deliver_all (r :: rs) op2) as (Hc&He&Hm&Hu&Hk&Hi); [done..|].
    eexists. split; [done|].
    rewrite Hc, He, Hm, Hu, Hk, Hi, Hc2, Hc1, He2, He1, Hu2, Hu1, Hk2, Hk1.
    by rewrite Hitems, Hiss.
Qed.

(** ** Search: the table of results *)

Lemma take_resolved_cons self m q ps :
  take_resolved self m (q :: ps)
  = take_resolved self (match self !! q with
                        | Some item => <[item_path item := item]> m
                        | None => m
                        end) ps.
Proof. done. Qed.

Lemma take_loaded_cons m r rs :
  take_loaded m (r :: rs)
  = take_loaded (match load_item r with
                 | Some item => <[item_path item := item]> m
                 | None => m
                 end) rs.
Proof. done. Qed.

Lemma take_resolved_lookup_live self m ps p item :
  registry_wf self → self !! p = Some item → p ∈ ps →
  take_resolved self m ps !! p = Some item.
Proof.
  intros Hwf Hp. revert m.
  cut (∀ m, (p ∈ ps ∨ m !! p = Some item) → take_resolved self m ps !! p = Some item).
  { intros H m Hin. apply H. by left. }
  induction ps as [|q ps IH]; intros m Hin.
  - destruct Hin as [Hin|Hm]; [|done]. by apply elem_of_nil in Hin.
  - rewrite take_resolved_cons. apply IH.
    destruct (decide (q = p)) as [->|Hne].
    + right. rewrite Hp. rewrite (Hwf _ _ Hp). apply lookup_insert_eq.
    + destruct Hin as [Hin|Hm].
      * left. apply elem_of_cons in Hin as [->|Hin]; done.
      * right. destruct (self !! q) as [it|] eqn:Hq; [|done].
        rewrite lookup_insert_ne; [done|]. by rewrite (Hwf _ _ Hq).
Qed.

Lemma take_resolved_lookup_unknown self m ps p :
  registry_wf self → self !! p = None →
  take_resolved self m ps !! p = m !! p.
Proof.
  intros Hwf Hp. revert m.
  induction ps as [|q ps IH]; intros m; [done|].
  rewrite take_resolved_cons, IH. destruct (self !! q) as [it|] eqn:Hq; [|done].
  apply lookup_insert_ne. rewrite (Hwf _ _ Hq). congruence.
Qed.

Lemma take_loaded_lookup item_new order : ∀ m p,
  loader_wf item_new →
  take_loaded m (item_new <$> order) !! p
  = if decide (p ∈ order)
    then match load_item (item_new p) with Some item => Some item | None => m !! p end
    else m !! p.
Proof.
  induction order as [|q order IH]; intros m p Hwf.
  - rewrite decide_False; [done|]. apply not_elem_of_nil.
  - rewrite fmap_cons, take_loaded_cons, IH by done.
    destruct (decide (q = p)) as [->|Hne].
    + rewrite (decide_True (P := p ∈ p :: order)) by apply list_elem_of_here.
      destruct (item_new p) as [item|e] eqn:Hp; simpl.
      * destruct (decide (p ∈ order)); [done|].
        rewrite (Hwf _ _ Hp). apply lookup_insert_eq.
      * by destruct (decide (p ∈ order)).
    + assert (Hm : match load_item (item_new q) with
                   | Some item => <[item_path item := item]> m
                   | None => m
                   end !! p = m !! p).
      { destruct (item_new q) as [item|e] eqn:Hq; simpl; [|done].
        rewrite lookup_insert_ne; [done|]. by rewrite (Hwf _ _ Hq). }
      rewrite Hm.
      destruct (decide (p ∈ order)) as [Hin|Hnin].
      * rewrite decide_True; [done|]. by apply list_elem_of_further.
      * rewrite decide_False; [done|].
        intros [?|?]%elem_of_cons; done.
Qed.

Lemma take_loaded_keeps m rs p :
  is_Some (m !! p) → is_Some (take_loaded m rs !! p).
Proof.
  revert m. induction rs as [|r rs IH]; intros m Hm; [done|].
  rewrite take_loaded_cons. apply IH.
  destruct (load_item r) as [item|]; [|done].
  destruct (decide (item_path item = p)) as [<-|Hne].
  - rewrite lookup_insert_eq. by eexists.
  - by rewrite lookup_insert_ne.
Qed.

Lemma take_loaded_has m rs item :
  Loaded item ∈ rs → is_Some (take_loaded m rs !! item_path item).
Proof.
  revert m. induction rs as [|r rs IH]; intros m Hin.
  - by apply elem_of_nil in Hin.
  - rewrite take_loaded_cons.
    apply elem_of_cons in Hin as [<-|Hin]; [|by apply IH].
    apply take_loaded_keeps. simpl. rewrite lookup_insert_eq. by eexists.
Qed.




Lemma stored_error_failed rs r :
  r ∈ rs → is_Some (load_error r) → is_Some (stored_error None rs).
Proof.
  intros Hin [e He]. rewrite stored_error_last.
  assert (Hel : e ∈ omap load_error rs).
  { apply list_elem_of_omap. eauto. }
  destruct (omap load_error rs) as [|x xs] using rev_ind.
  - by apply elem_of_nil in Hel.
  - rewrite last_snoc. by eexists.
Qed.

Lemma stored_error_none rs :
  (∀ r, r ∈ rs → load_error r = None) → stored_error None rs = None.
Proof.
  intros H. rewrite stored_error_last.
  replace (omap load_error rs) with (@nil GError); [done|].
  symmetry. induction rs as [|r rs IH]; [done|].
  simpl. rewrite (H r) by apply list_elem_of_here.
  apply IH. intros r' Hr'. apply H. by apply list_elem_of_further.
Qed.

Lemma search_table_live self item_new u l order p item :
  registry_wf self → loader_wf item_new →
  order ≡ₚ unresolved self (u ++ l) →
  p ∈ u ++ l → self !! p = Some item →
  take_loaded (take_resolved self ∅ (u ++ l)) (item_new <$> order) !! p = Some item.
Proof.
  intros Hself Hnew Hperm Hin Hp.
  rewrite take_loaded_lookup by done.
  rewrite decide_False.
  - by apply take_resolved_lookup_live.
  - rewrite Hperm. unfold unresolved. rewrite list_elem_of_filter.
    intros [Hnone _]. congruence.
Qed.

Lemma search_table_loaded self item_new u l order p item :
  registry_wf self → loader_wf item_new →
  order ≡ₚ unresolved self (u ++ l) →
  p ∈ u ++ l → self !! p = None → item_new p = Loaded item →
  take_loaded (take_resolved self ∅ (u ++ l)) (item_new <$> order) !! p = Some item.
Proof.
  intros Hself Hnew Hperm Hin Hp Hl.
  rewrite take_loaded_lookup by done.
  rewrite decide_True.
  - by rewrite Hl.
  - rewrite Hperm. unfold unresolved. by rewrite list_elem_of_filter.
Qed.

Lemma omap_resolved (f g : ObjectPath → option SecretItem) ps :
  (∀ p, p ∈ ps → f p = g p ∧ ∃ h, g p = Some h ∧ item_path h = p) →
  Forall2 (λ p h, g p = Some h) ps (omap f ps)
  ∧ item_path <$> omap f ps = ps.
Proof.
  induction ps as [|p ps IH]; intros H; [by split|].
  destruct IH as (Hf&Hp).
  { intros q Hq. apply H. by apply list_elem_of_further. }
  destruct (H p) as (Hfg&h&Hg&Hh); [apply list_elem_of_here|].
  change (omap f (p :: ps))
    with (match f p with Some y => y :: omap f ps | None => omap f ps end).
  rewrite Hfg, Hg, fmap_cons, Hh, Hp. split; [|done]. by constructor.
Qed.

(** ** Tables built by a loop of insertions *)

Section FoldInsert.
Context {X V : Type} (g : X → option (string * V)).

Lemma fold_insert_Some xs : ∀ m k v,
  foldl (insert_entry g) m xs !! k = Some v →
  m !! k = Some v ∨ ∃ x, x ∈ xs ∧ g x = Some (k, v).
Proof.
  induction xs as [|x xs IH]; intros m k v; simpl; [by left|].
  intros [Hm|(x'&Hin&Hx')]%IH.
  - unfold insert_entry in Hm. destruct (g x) as [[k' v']|] eqn:Hx; [|by left].
    destruct (decide (k' = k)) as [->|Hne].
    + rewrite lookup_insert_eq in Hm. injection Hm as ->.
      right. exists x. split; [apply list_elem_of_here|done].
    + rewrite lookup_insert_ne in Hm by done. by left.
  - right. exists x'. split; [by apply list_elem_of_further|done].
Qed.

Lemma fold_insert_unique xs : ∀ m k v x,
  x ∈ xs → g x = Some (k, v) →
  (∀ x' v', x' ∈ xs → g x' = Some (k, v') → v' = v) →
  foldl (insert_entry g) m xs !! k = Some v.
Proof.
  cut (∀ m k v, (m !! k = Some v ∨ ∃ x, x ∈ xs ∧ g x = Some (k, v)) →
                (∀ x' v', x' ∈ xs → g x' = Some (k, v') → v' = v) →
                foldl (insert_entry g) m xs !! k = Some v).
  { intros H m k v x Hin Hx Hu. apply H; [|done]. right. by exists x. }
  induction xs as [|x xs IH]; intros m k v Hhas Hu; simpl.
  - destruct Hhas as [Hm|(x&Hin&_)]; [done|]. by apply elem_of_nil in Hin.
  - apply IH.
    + unfold insert_entry. destruct (g x) as [[k' v']|] eqn:Hx.
      * destruct (decide (k' = k)) as [->|Hne].
        -- left. rewrite lookup_insert_eq. f_equal.
           apply (Hu x); [apply list_elem_of_here|done].
        -- destruct Hhas as [Hm|(x'&Hin&Hx')].
           ++ left. by rewrite lookup_insert_ne.
           ++ apply elem_of_cons in Hin as [->|Hin]; [congruence|].
              right. by exists x'.
      * destruct Hhas as [Hm|(x'&Hin&Hx')]; [by left|].
        apply elem_of_cons in Hin as [->|Hin]; [congruence|].
        right. by exists x'.
    + intros x' v' Hin. apply Hu. by apply list_elem_of_further.
Qed.
End FoldInsert.

Lemma items_table_fold l :
  items_table l = foldl (insert_entry (λ x, Some (item_path x, x))) ∅ l.
Proof. done. Qed.

Lemma items_table_Some l p h :
  items_table l !! p = Some h → h ∈ l ∧ item_path h = p.
Proof.
  rewrite items_table_fold.
  intros [Hm|(x&Hin&Hx)]%fold_insert_Some.
  - by rewrite lookup_empty in Hm.
  - by injection Hx as <- <-.
Qed.

Lemma items_table_lookup l h :
  one_handle_per_path l → h ∈ l → items_table l !! item_path h = Some h.
Proof.
  intros Hone Hin. rewrite items_table_fold.
  apply (fold_insert_unique (λ x, Some (item_path x, x)) l ∅ _ _ h); [done..|].
  intros x' v' Hin' [= Hp <-]. by apply Hone.
Qed.

Lemma collect_items_table l : ∀ (table : gmap string SecretItem) (paths : list ObjectPath),
  foldl (λ '(table, paths) item,
           (<[item_path item := item]> table, paths ++ [item_path item]))
        (table, paths) l
  = (foldl (λ m item, <[item_path item := item]> m) table l,
     paths ++ (item_path <$> l)).
Proof.
  induction l as [|h l IH]; intros table paths; simpl.
  - by rewrite app_nil_r.
  - by rewrite IH, <- app_assoc.
Qed.

Lemma get_secrets_collect_eq l :
  get_secrets_collect l = (items_table l, item_path <$> l).
Proof. unfold get_secrets_collect. by rewrite collect_items_table. Qed.

Lemma xlock_collect_eq l :
  xlock_collect l = (items_table l, item_path <$> l).
Proof. unfold xlock_collect. by rewrite collect_items_table. Qed.

(** ** The claims on the search chain *)

(** C1 (the code departs from it). When the path search fails,
    [on_search_paths] records the error and runs the callback, but does not
    return: it goes on to the two fan-out loops. With the arrays left
    [NULL] the first loop indexes a [NULL] pointer right after the
    callback has run; with (empty) arrays stored the function reaches its
    final test, finds [loading == 0] and runs the callback a second
    time. *)
Theorem search_paths_failure_completion self e :
  (∃ op, secret_service_search self (PathsFailed e None None) [] = NullDeref op
         ∧ length (callbacks op) = 1%nat)
  ∧ (∃ op, secret_service_search self (PathsFailed e (Some []) (Some [])) [] = Returned op
           ∧ callbacks op = [res op; res op]
           ∧ GSimpleAsyncResult.error (res op) = Some e).
Proof. split; eexists; (split; [reflexivity|done]). Qed.

(** C2 (the code departs from it). After a failed path search
    [on_search_paths] never stops at the completion: either it indexes a
    [NULL] array in the fan-out loops, or it walks the arrays the failed
    call left behind, requests a load for each path without live instance,
    and, when there is none, completes a second time. *)
Theorem search_paths_failure_falls_through self e u l :
  match on_search_paths self (PathsFailed e u l) (operation_new search_closure_new) with
  | NullDeref op => (u = None ∨ l = None) ∧ length (callbacks op) = 1%nat
  | Returned op =>
      ∃ us ls, u = Some us ∧ l = Some ls
        ∧ issued op = unresolved self (us ++ ls)
        ∧ (issued op ≠ [] ∨ length (callbacks op) = 2%nat)
  end.
Proof.
  unfold on_search_paths.
  set (op0 := g_simple_async_result_complete _).
  destruct u as [us|]; [|by (split; [left|])].
  change (unlocked (closure op0)) with (Some us).
  destruct (fan_out self us op0 0) as (He1&Hc1&Hu1&Hk1&Hi1&Hl1&Hm1); [done|].
  set (op1 := foldl (search_load_item_async self) op0 us) in *.
  rewrite Hk1. change (locked (closure op0)) with l.
  destruct l as [ls|]; [|split; [by right|by rewrite Hc1]].
  destruct (fan_out self ls op1 _ Hl1) as (He2&Hc2&Hu2&Hk2&Hi2&Hl2&Hm2).
  set (op2 := foldl (search_load_item_async self) op1 ls) in *.
  assert (Hiss : issued op2 = unresolved self (us ++ ls)).
  { rewrite Hi2, Hi1. unfold unresolved. by rewrite filter_app. }
  exists us, ls. split; [done|]. split; [done|].
  destruct (Z.eqb_spec (loading (closure op2)) 0) as [H0|H0].
  - split; [done|]. right. simpl. rewrite Hc2, Hc1. done.
  - split; [done|]. left. intros Hnil. apply H0.
    rewrite Hl2. rewrite Hi2, Hi1 in Hnil.
    apply app_eq_nil in Hnil as [Hn1 Hn2].
    simpl in Hn1. by rewrite Hn1, Hn2.
Qed.

(** C3, as stated, fails: of two failing loads the error of the second to
    arrive is the one the finished chain holds, not that of the first. *)
Lemma search_first_error_overwritten :
  let rs := [LoadFailed Sample.io_error; LoadFailed Sample.cancelled] in
  ∃ op, secret_service_search ∅ (PathsFound ["/c/1"; "/c/2"] []) rs = Returned op
    ∧ callbacks op = [res op]
    ∧ head (omap load_error rs) = Some Sample.io_error
    ∧ secret_service_search_finish (res op) true true
      = Returned {| search_ok := false; out_unlocked := None; out_locked := None;
                    out_error := Some Sample.cancelled |}
    ∧ GSimpleAsyncResult.error (res op) ≠ head (omap load_error rs).
Proof. eexists. split; [reflexivity|]. repeat split. discriminate. Qed.

Lemma take_resolved_inserts self ps : ∀ m,
  take_resolved self m ps
  = foldl (λ m item, <[item_path item := item]> m) m (omap (λ p, self !! p) ps).
Proof.
  induction ps as [|p ps IH]; intros m; [done|].
  rewrite take_resolved_cons, IH.
  change (omap (λ p, self !! p) (p :: ps))
    with (match self !! p with
          | Some y => y :: omap (λ p, self !! p) ps
          | None => omap (λ p, self !! p) ps
          end).
  by destruct (self !! p).
Qed.

Lemma take_loaded_inserts rs : ∀ m,
  take_loaded m rs
  = foldl (λ m item, <[item_path item := item]> m) m (omap load_item rs).
Proof.
  induction rs as [|r rs IH]; intros m; [done|].
  rewrite take_loaded_cons, IH.
  change (omap load_item (r :: rs))
    with (match load_item r with
          | Some y => y :: omap load_item rs
          | None => omap load_item rs
          end).
  by destruct (load_item r).
Qed.

(** The table of results is the table of the proxies taken: the live
    instances of the reply's paths, then the loaded items as they
    arrived. *)
Lemma search_table_items self ps rs :
  take_loaded (take_resolved self ∅ ps) rs
  = items_table (omap (λ p, self !! p) ps ++ omap load_item rs).
Proof.
  unfold items_table. by rewrite foldl_app, take_loaded_inserts, take_resolved_inserts.
Qed.

(** C3 (amended). After a successful path search, whatever the results of
    the requested loads and the order they arrive in, the callback runs
    once, after the last of them; the error the chain surfaces is that of
    the last load to fail (a later failure replaces the stored error, a
    later success leaves it). When no two different proxies for one path
    are taken, the item of every successful load is the entry of its path
    in the table of results. *)
Theorem search_last_error_surfaced self u l rs :
  length rs = length (unresolved self (u ++ l)) →
  Z.of_nat (length rs) < 2 ^ 32 →
  ∃ op, secret_service_search self (PathsFound u l) rs = Returned op
    ∧ callbacks op = [res op]
    ∧ GSimpleAsyncResult.error (res op) = last (omap load_error rs)
    ∧ (∀ e wu wl, last (omap load_error rs) = Some e →
         secret_service_search_finish (res op) wu wl
         = Returned {| search_ok := false; out_unlocked := None; out_locked := None;
                       out_error := Some e |})
    ∧ (one_handle_per_path (omap (λ p, self !! p) (u ++ l) ++ omap load_item rs) →
       ∀ item, Loaded item ∈ rs → items (closure op) !! item_path item = Some item).
Proof.
  intros Hlen Hlt.
  destruct (search_found self u l rs Hlen Hlt) as (op&Hrun&Hc&He&Hm&Hu&Hk&Hi).
  exists op. rewrite stored_error_last in He.
  repeat split; try done.
  - intros e wu wl Hlast. unfold secret_service_search_finish.
    unfold GSimpleAsyncResult.propagate_error. by rewrite He, Hlast.
  - intros Hone item Hin. rewrite Hm, search_table_items.
    apply items_table_lookup; [done|].
    apply elem_of_app. right. apply list_elem_of_omap. by exists (Loaded item).
Qed.

Lemma search_last_error_surfaced_witness :
  ∃ op, secret_service_search Sample.registry (PathsFound ["/c/1"; "/c/2"] ["/c/3"; "/c/4"])
          [LoadFailed Sample.cancelled; Loaded (Sample.item 9 "/c/3");
           LoadFailed Sample.io_error] = Returned op
    ∧ callbacks op = [res op]
    ∧ GSimpleAsyncResult.error (res op) = Some Sample.io_error.
Proof.
  destruct (search_last_error_surfaced Sample.registry ["/c/1"; "/c/2"] ["/c/3"; "/c/4"]
              [LoadFailed Sample.cancelled; Loaded (Sample.item 9 "/c/3");
               LoadFailed Sample.io_error])
    as (op&Hrun&Hc&He&_); [reflexivity|vm_compute; reflexivity|].
  exists op. repeat split; assumption.
Defined.

Lemma search_table_resolved self item_new u l order :
  registry_wf self → loader_wf item_new →
  order ≡ₚ unresolved self (u ++ l) →
  (∀ p, p ∈ order → load_error (item_new p) = None) →
  ∀ p, p ∈ u ++ l →
    take_loaded (take_resolved self ∅ (u ++ l)) (item_new <$> order) !! p
    = resolve self item_new p
    ∧ ∃ h, resolve self item_new p = Some h ∧ item_path h = p.
Proof.
  intros Hself Hnew Hperm Hall p Hin. unfold resolve.
  destruct (self !! p) as [item|] eqn:Hp.
  - split; [by eapply search_table_live|]. exists item. split; [done|]. by apply Hself.
  - assert (Hord : p ∈ order).
    { rewrite Hperm. unfold unresolved. by rewrite list_elem_of_filter. }
    specialize (Hall p Hord).
    destruct (item_new p) as [item|e] eqn:Hl; [|done].
    split; [by eapply search_table_loaded|]. exists item. split; [done|]. by apply Hnew.
Qed.

(** C4, as stated, fails: with the load of ["/c/2"] failing and that of
    ["/c/3"] succeeding, the finish function does not return the list of
    the loaded handle; it returns [FALSE] and writes no list. *)
Lemma search_finish_failed_load_no_lists :
  ∃ op, secret_service_search ∅ (PathsFound ["/c/2"; "/c/3"] [])
          (Sample.failing_loader <$> ["/c/2"; "/c/3"]) = Returned op
    ∧ callbacks op = [res op]
    ∧ search_finish_build ["/c/2"; "/c/3"] (closure op) = [Sample.item 9 "/c/3"]
    ∧ secret_service_search_finish (res op) true true
      = Returned {| search_ok := false; out_unlocked := None; out_locked := None;
                    out_error := Some Sample.io_error |}.
Proof. eexists. split; [reflexivity|]. by repeat split. Qed.

(** C4 (amended). After a successful path search whose reply names no
    path without live instance twice, in whatever order the loads
    complete: if every requested load succeeded, the finish function
    returns [TRUE] and each list it is asked for holds, path by path in the
    order of the search reply, the handle of that path (the live instance,
    else the loaded one); if some load failed, it returns [FALSE] with an
    error and writes neither list. [search_finish_build] itself keeps the
    order of the paths and skips those without an entry in the table. *)
Theorem search_finish_in_path_order self item_new u l order wu wl :
  registry_wf self → loader_wf item_new →
  order ≡ₚ unresolved self (u ++ l) →
  NoDup (unresolved self (u ++ l)) →
  Z.of_nat (length order) < 2 ^ 32 →
  ∃ op, secret_service_search self (PathsFound u l) (item_new <$> order) = Returned op
    ∧ callbacks op = [res op]
    ∧ ((∀ p, p ∈ order → load_error (item_new p) = None) →
         ∃ us ls,
           secret_service_search_finish (res op) wu wl
           = Returned {| search_ok := true;
                         out_unlocked := if wu then Some us else None;
                         out_locked := if wl then Some ls else None;
                         out_error := None |}
           ∧ Forall2 (λ p h, resolve self item_new p = Some h) u us
           ∧ Forall2 (λ p h, resolve self item_new p = Some h) l ls
           ∧ item_path <$> us = u ∧ item_path <$> ls = l)
    ∧ (∀ p, p ∈ order → is_Some (load_error (item_new p)) →
         ∃ e, secret_service_search_finish (res op) wu wl
              = Returned {| search_ok := false; out_unlocked := None;
                            out_locked := None; out_error := Some e |})
    ∧ (∀ paths c, search_finish_build paths c = omap (λ p, items c !! p) paths).
Proof.
  intros Hself Hnew Hperm _ Hlt.
  destruct (search_found self u l (item_new <$> order)) as (op&Hrun&Hc&He&Hm&Hu&Hk&Hi).
  { by rewrite length_fmap, Hperm. }
  { by rewrite length_fmap. }
  exists op. split; [done|]. split; [done|].
  split; [|split; [|apply search_finish_build_omap]].
  - intros Hall.
    pose proof (search_table_resolved self item_new u l order Hself Hnew Hperm Hall) as Hres.
    rewrite <- Hm in Hres.
    destruct (omap_resolved (λ p, items (closure op) !! p) (resolve self item_new) u)
      as (Hfu&Hpu).
    { intros p Hp. apply Hres, elem_of_app. by left. }
    destruct (omap_resolved (λ p, items (closure op) !! p) (resolve self item_new) l)
      as (Hfl&Hpl).
    { intros p Hp. apply Hres, elem_of_app. by right. }
    exists (search_finish_build u (closure op)), (search_finish_build l (closure op)).
    rewrite !search_finish_build_omap. split; [|done].
    unfold secret_service_search_finish, GSimpleAsyncResult.propagate_error.
    rewrite He, stored_error_none.
    + fold (closure op). rewrite Hu, Hk, !search_finish_build_omap.
      by destruct wu, wl.
    + intros r (p&->&Hp)%list_elem_of_fmap. by apply Hall.
  - intros p Hp Hfail.
    destruct (stored_error_failed (item_new <$> order) (item_new p)) as [e Hse];
      [by apply list_elem_of_fmap_2|done|].
    exists e. unfold secret_service_search_finish, GSimpleAsyncResult.propagate_error.
    by rewrite He, Hse.
Qed.

Lemma sample_registry_wf : registry_wf Sample.registry.
Proof.
  intros p item. unfold Sample.registry.
  rewrite lookup_singleton_Some. by intros [<- <-].
Qed.

Lemma sample_loader_wf : loader_wf Sample.loader.
Proof. intros p item. unfold Sample.loader. by intros [= <-]. Qed.

Lemma sample_failing_loader_wf : loader_wf Sample.failing_loader.
Proof.
  intros p item. unfold Sample.failing_loader.
  repeat case_decide; [done..|]. by intros [= <-].
Qed.

Lemma search_finish_in_path_order_witness :
  ∃ op, secret_service_search Sample.registry (PathsFound ["/c/1"; "/c/2"] ["/c/3"])
          (Sample.loader <$> ["/c/3"; "/c/2"]) = Returned op
    ∧ secret_service_search_finish (res op) true true
      = Returned {| search_ok := true;
                    out_unlocked := Some [Sample.item 1 "/c/1"; Sample.item 9 "/c/2"];
                    out_locked := Some [Sample.item 9 "/c/3"];
                    out_error := None |}.
Proof.
  destruct (search_finish_in_path_order Sample.registry Sample.loader
              ["/c/1"; "/c/2"] ["/c/3"] ["/c/3"; "/c/2"] true true)
    as (op&Hrun&_).
  - exact sample_registry_wf.
  - exact sample_loader_wf.
  - vm_compute. apply perm_swap.
  - by apply (bool_decide_unpack _).
  - vm_compute. reflexivity.
  - exists op. split; [exact Hrun|].
    vm_compute in Hrun. injection Hrun as <-. reflexivity.
Defined.

Lemma load_items_loop_resolves self item_new paths : ∀ acc hs,
  load_items_loop self item_new paths acc = inr hs →
  ∃ hs', hs = rev acc ++ hs'
    ∧ Forall2 (λ q h, resolve self item_new q = Some h) paths hs'.
Proof.
  induction paths as [|q paths IH]; intros acc hs; simpl.
  - intros [= <-]. exists []. by rewrite app_nil_r.
  - intros Hloop.
    assert (∃ item, resolve self item_new q = Some item
                    ∧ load_items_loop self item_new paths (item :: acc) = inr hs)
      as (item&Hq&Hrest).
    { unfold resolve. destruct (self !! q) as [item|]; [by eexists|].
      destruct (item_new q) as [item|e]; [by eexists|done]. }
    destruct (IH _ _ Hrest) as (hs'&->&Hf).
    exists (item :: hs'). simpl. rewrite <- app_assoc. split; [done|]. by constructor.
Qed.


Lemma load_items_loop_all self item_new paths : ∀ acc,
  (∀ p, p ∈ paths → is_Some (resolve self item_new p)) →
  load_items_loop self item_new paths acc
  = inr (rev acc ++ omap (resolve self item_new) paths).
Proof.
  induction paths as [|q paths IH]; intros acc Hall; simpl.
  - by rewrite app_nil_r.
  - destruct (Hall q) as [h Hq]; [apply list_elem_of_here|].
    rewrite Hq. unfold resolve in Hq.
    destruct (self !! q) as [item|].
    + injection Hq as ->. rewrite IH.
      * simpl. by rewrite <- app_assoc.
      * intros p Hp. apply Hall. by apply list_elem_of_further.
    + destruct (item_new q) as [item|e]; [|done].
      injection Hq as ->. rewrite IH.
      * simpl. by rewrite <- app_assoc.
      * intros p Hp. apply Hall. by apply list_elem_of_further.
Qed.

Lemma omap_length_all {A B : Type} (f : A → option B) (l : list A) :
  Forall (λ x, is_Some (f x)) l → length (omap f l) = length l.
Proof.
  induction 1 as [|x l [y Hy] _ IH]; [done|].
  change (omap f (x :: l))
    with (match f x with Some y => y :: omap f l | None => omap f l end).
  rewrite Hy. simpl. by rewrite IH.
Qed.

Lemma resolve_path self item_new q h :
  registry_wf self → loader_wf item_new →
  resolve self item_new q = Some h → item_path h = q.
Proof.
  intros Hself Hnew. unfold resolve.
  destruct (self !! q) as [item|] eqn:Hq.
  - intros [= <-]. by apply Hself.
  - destruct (item_new q) as [item|e] eqn:Hl; [|done].
    intros [= <-]. by apply Hnew.
Qed.



(** ** GetSecrets *)

Section GetSecretsProofs.
Variable decode_secret : EncryptedSecret → option SecretValue.

Lemma decode_all_fold out : ∀ m : gmap string SecretValue,
  foldl (λ values '(path, variant),
           match decode_secret variant with
           | Some value => <[path := value]> values
           | None => values
           end) m out
  = foldl (insert_entry (decoded_entry decode_secret)) m out.
Proof.
  induction out as [|[p x] out IH]; intros m; [done|].
  simpl. rewrite IH. unfold insert_entry, decoded_entry. simpl. by destruct (decode_secret x).
Qed.

Lemma decode_all_Some out p v :
  _secret_service_decode_get_secrets_all decode_secret out !! p = Some v →
  ∃ x, (p, x) ∈ out ∧ decode_secret x = Some v.
Proof.
  unfold _secret_service_decode_get_secrets_all. rewrite decode_all_fold.
  intros [Hm|([p' x]&Hin&Hx)]%fold_insert_Some.
  - by rewrite lookup_empty in Hm.
  - unfold decoded_entry in Hx. simpl in Hx.
    destruct (decode_secret x) as [v'|] eqn:Hd; [|done].
    injection Hx as -> ->. by exists x.
Qed.

Lemma decode_all_lookup out p x v :
  one_entry_per_path out → (p, x) ∈ out → decode_secret x = Some v →
  _secret_service_decode_get_secrets_all decode_secret out !! p = Some v.
Proof.
  intros Hone Hin Hd.
  unfold _secret_service_decode_get_secrets_all. rewrite decode_all_fold.
  apply (fold_insert_unique (decoded_entry decode_secret) out ∅ p v (p, x)); [done| |].
  - unfold decoded_entry. simpl. by rewrite Hd.
  - intros [p' x'] v' Hin'. unfold decoded_entry. simpl.
    destruct (decode_secret x') as [v''|] eqn:Hd'; [|done].
    intros [= -> ->]. rewrite (Hone p x' x Hin' Hin) in Hd'. congruence.
Qed.

Lemma rekey_lookup (table : gmap string SecretItem) (with_paths : gmap string SecretValue) :
  table_wf table →
  ∀ h v,
    map_fold (λ path value with_items,
                match table !! path with
                | Some item => <[item := value]> with_items
                | None => with_items
                end) (∅ : gmap SecretItem SecretValue) with_paths !! h = Some v
    ↔ table !! item_path h = Some h ∧ with_paths !! item_path h = Some v.
Proof.
  intros Hwf.
  apply (map_fold_weak_ind (λ (r : gmap SecretItem SecretValue) m,
           ∀ h v, r !! h = Some v
                  ↔ table !! item_path h = Some h ∧ m !! item_path h = Some v)).
  - intros h v. rewrite !lookup_empty. split; [done|by intros [_ ?]].
  - intros i x m r Hi IH h v.
    destruct (table !! i) as [item|] eqn:Hti.
    + pose proof (Hwf _ _ Hti) as Hpi.
      destruct (decide (item = h)) as [->|Hne].
      * rewrite lookup_insert_eq, Hpi, lookup_insert_eq, Hti. split; [done|by intros [_ ?]].
      * rewrite lookup_insert_ne by done. rewrite IH.
        destruct (decide (i = item_path h)) as [->|Hne'].
        -- rewrite Hti, Hi. split; intros [? ?]; [done|congruence].
        -- by rewrite lookup_insert_ne.
    + rewrite IH. destruct (decide (i = item_path h)) as [->|Hne'].
      * rewrite Hti. split; intros [? ?]; done.
      * by rewrite lookup_insert_ne.
Qed.

Lemma items_table_wf l : table_wf (items_table l).
Proof. intros p h Hp. by apply items_table_Some in Hp as [_ ?]. Qed.

(** C6, as stated, fails, in two ways. The reply reports secrets for
    ["/c/1"] and ["/c/3"], but the entry of ["/c/1"] does not decode: the
    finish function drops it without an error, so that the handle of
    ["/c/1"] is not a key of the result. And when the session cannot be
    established the finish function fails, although no [GetSecrets] call
    was made and nothing was decoded. *)
Lemma get_secrets_undecodable_dropped :
  let ha := Sample.item 1 "/c/1" in
  let hb := Sample.item 2 "/c/2" in
  let hc := Sample.item 3 "/c/3" in
  let reply (_ : list ObjectPath) (_ : ObjectPath) :=
    SecretsReturned [("/c/1", Sample.encrypted []);
                     ("/c/3", Sample.encrypted [Byte.x73])] in
  (∃ R, secret_service_get_secrets_finish Sample.decode
          (res (secret_service_get_secrets [ha; hb; hc] (SessionReady "/session/1") reply))
        = Returned (inr R)
      ∧ R !! ha = None ∧ R !! hb = None ∧ R !! hc = Some (Sample.plain [Byte.x73]))
  ∧ (let op := secret_service_get_secrets [ha; hb; hc] (SessionFailed Sample.io_error) reply in
     secret_service_get_secrets_finish Sample.decode (res op) = Returned (inl Sample.io_error)
     ∧ issued op = [EnsureSession]).
Proof.
  split; [|done]. eexists. split; [reflexivity|]. by vm_compute.
Qed.
(** C6 (amended). The chain completes once. Its finish function fails
    exactly when the session could not be established or the batched
    [GetSecrets] call failed, with that error. Otherwise it returns a
    table whose keys are input handles whose path has an entry in the
    reply that decodes, with the decoded value; an entry that does not
    decode is dropped like a missing one, without an error. With one
    input handle per path and one reply entry per path, the keys are
    exactly those handles. *)
Theorem get_secrets_result l session proxy_call :
  one_handle_per_path l →
  (∀ paths s out, proxy_call paths s = SecretsReturned out → one_entry_per_path out) →
  let op := secret_service_get_secrets l session proxy_call in
  let finish := secret_service_get_secrets_finish decode_secret in
  callbacks op = [res op]
  ∧ match session with
    | SessionFailed e =>
        issued op = [EnsureSession] ∧ finish (res op) = Returned (inl e)
    | SessionReady s =>
        issued op = [EnsureSession; GetSecrets (item_path <$> l) s]
        ∧ match proxy_call (item_path <$> l) s with
          | GetSecretsFailed e => finish (res op) = Returned (inl e)
          | SecretsReturned out =>
              ∃ R, finish (res op) = Returned (inr R)
                ∧ (∀ h v, R !! h = Some v ↔
                     h ∈ l ∧ ∃ x, (item_path h, x) ∈ out ∧ decode_secret x = Some v)
          end
    end.
Proof.
  intros Hl Hcall op finish. subst op finish.
  unfold secret_service_get_secrets. rewrite get_secrets_collect_eq.
  destruct session as [s|e]; [|done].
  unfold call, on_get_secrets_session, call. simpl.
  destruct (proxy_call (item_path <$> l) s) as [out|e] eqn:Hout; [|done].
  split; [done|]. split; [done|].
  eexists. split; [reflexivity|].
  intros h v. rewrite rekey_lookup by apply items_table_wf. split.
  - intros [Hh Hv]. apply items_table_Some in Hh as [Hh _].
    split; [done|]. by apply decode_all_Some.
  - intros (Hh&x&Hx&Hd). split; [by apply items_table_lookup|].
    eapply decode_all_lookup; [by eapply Hcall|done..].
Qed.
End GetSecretsProofs.

Lemma get_secrets_result_witness :
  let ha := Sample.item 1 "/c/1" in
  let hb := Sample.item 2 "/c/2" in
  let hc := Sample.item 3 "/c/3" in
  let reply (_ : list ObjectPath) (_ : ObjectPath) :=
    SecretsReturned [("/c/1", Sample.encrypted [Byte.x61]);
                     ("/c/3", Sample.encrypted [Byte.x63])] in
  let op := secret_service_get_secrets [ha; hb; hc] (SessionReady "/session/1") reply in
  callbacks op = [res op]
  ∧ secret_service_get_secrets_finish Sample.decode (res op)
    = Returned (inr {[ ha := Sample.plain [Byte.x61]; hc := Sample.plain [Byte.x63] ]}).
Proof.
  intros ha hb hc reply op.
  destruct (get_secrets_result Sample.decode [ha; hb; hc] (SessionReady "/session/1") reply)
    as (Hc&_&_).
  - intros h h' Hh Hh' Hp.
    repeat (apply elem_of_cons in Hh as [->|Hh]);
      repeat (apply elem_of_cons in Hh' as [->|Hh']);
      try done; by apply elem_of_nil in Hh || by apply elem_of_nil in Hh'.
  - intros paths s out [= <-] p x x' Hx Hx'.
    repeat (apply elem_of_cons in Hx as [[= -> ->]|Hx]);
      repeat (apply elem_of_cons in Hx' as [[= ->]|Hx']);
      try done; by apply elem_of_nil in Hx || by apply elem_of_nil in Hx'.
  - split; [exact Hc|]. by vm_compute.
Defined.

(** ** Lock / Unlock *)

Lemma gint_of_guint_small n : 0 ≤ n < 2 ^ 31 → gint_of_guint n = n.
Proof.
  intros Hn. unfold gint_of_guint.
  destruct (Z.ltb_spec n (2 ^ 31)); [done|lia].
Qed.

Lemma service_xlock_chain method l proxy_call prompter :
  let op := service_xlock_async method l proxy_call prompter in
  let reply := proxy_call method (item_path <$> l) in
  callbacks op = [res op]
  ∧ GSimpleAsyncResult.error (res op) = xlock_failure reply prompter
  ∧ objects (closure op) = Some (items_table l)
  ∧ xlocked (closure op) = transitioned reply prompter.
Proof.
  unfold service_xlock_async. rewrite xlock_collect_eq. simpl.
  unfold on_xlock_called, transitioned, xlock_failure.
  destruct (proxy_call method (item_path <$> l)) as [xl pr|e]; [|done].
  destruct (_secret_util_empty_path pr); [done|].
  unfold call, on_xlock_prompted.
  destruct (prompter pr) as [[retval|] [e|]]; done.
Qed.

Lemma xlock_rebuild (table : gmap string SecretItem) paths :
  rev (foldl (λ l path, match Some table ≫= (λ t, t !! path) with
                        | Some object => object :: l
                        | None => l
                        end) [] paths)
  = omap (λ p, table !! p) paths.
Proof.
  cut (∀ acc, rev (foldl (λ l path, match Some table ≫= (λ t, t !! path) with
                                    | Some object => object :: l
                                    | None => l
                                    end) acc paths)
              = rev acc ++ omap (λ p, table !! p) paths).
  { intros H. by rewrite H. }
  induction paths as [|p ps IH]; intros acc; simpl.
  - by rewrite app_nil_r.
  - rewrite IH. destruct (table !! p); [|done].
    simpl. by rewrite <- app_assoc.
Qed.

(** C8. When the chain ends without an error, the finish function returns
    the number of paths the service reported as transitioned; and, when
    that number is positive, the list it stores holds, in the order of
    those paths, the input handle the table built at call time has for
    each of them: only input handles, only for transitioned paths, every
    input handle of a transitioned path (one handle per path), and nothing
    for a transitioned path that was not among the inputs, which raises no
    error. *)
Theorem xlock_finish_reassociates method l proxy_call prompter cell :
  let op := service_xlock_async method l proxy_call prompter in
  let T := transitioned (proxy_call method (item_path <$> l)) prompter in
  Z.of_nat (length T) < 2 ^ 31 →
  xlock_failure (proxy_call method (item_path <$> l)) prompter = None →
  callbacks op = [res op]
  ∧ ∃ r, service_xlock_finish (res op) (Some cell) = Returned r
      ∧ xlock_error r = None
      ∧ xlock_count r = Z.of_nat (length T)
      ∧ (T ≠ [] →
           ∃ hs, xlock_cell r = Some (GList hs)
             ∧ hs = omap (λ p, items_table l !! p) T
             ∧ (∀ h, h ∈ hs → h ∈ l ∧ item_path h ∈ T)
             ∧ (∀ p, p ∈ T → p ∉ item_path <$> l → p ∉ item_path <$> hs)
             ∧ (one_handle_per_path l → ∀ h, h ∈ l → item_path h ∈ T → h ∈ hs)).
Proof.
  intros op T Hlen Hok.
  destruct (service_xlock_chain method l proxy_call prompter) as (Hc&He&Ho&Hx).
  fold op in Hc, He, Ho, Hx. fold T in Hx. rewrite Hok in He.
  split; [done|].
  unfold service_xlock_finish, service_xlock_paths_finish,
    GSimpleAsyncResult.propagate_error.
  rewrite He. fold (closure op). rewrite Hx, Ho.
  rewrite gint_of_guint_small by lia.
  rewrite bool_decide_eq_true_2 by by eexists.
  destruct T as [|p T'] eqn:HT.
  - simpl. eexists. by repeat split.
  - destruct (Z.ltb_spec 0 (Z.of_nat (length (p :: T')))) as [_|Hle];
      [|simpl length in Hle; lia].
    eexists. split; [reflexivity|]. split; [done|]. split; [done|].
    intros _. eexists. split; [reflexivity|].
    rewrite xlock_rebuild. split; [done|]. rewrite <- HT. clear HT. split; [|split].
    + intros h (q&Hq&Hh)%list_elem_of_omap.
      apply items_table_Some in Hh as [Hh <-]. done.
    + intros q Hq Hnot (h&->&Hh)%list_elem_of_fmap. apply Hnot.
      apply list_elem_of_omap in Hh as (q'&_&Hh).
      apply items_table_Some in Hh as [Hh _]. by apply list_elem_of_fmap_2.
    + intros Hone h Hh Hp. apply list_elem_of_omap.
      exists (item_path h). split; [done|]. by apply items_table_lookup.
Qed.

Lemma xlock_finish_reassociates_witness :
  let l := [Sample.item 1 "/c/1"; Sample.item 2 "/c/2"] in
  let op := secret_service_unlock l Sample.unlock_reply Sample.dismissed in
  callbacks op = [res op]
  ∧ service_xlock_finish (res op) (Some (Indeterminate 57005))
    = Returned {| xlock_count := 2; xlock_cell := Some (GList [Sample.item 1 "/c/1"]);
                  xlock_error := None |}.
Proof.
  intros l op.
  destruct (xlock_finish_reassociates "Unlock" l Sample.unlock_reply Sample.dismissed
              (Indeterminate 57005)) as (Hc&r&Hr&_).
  - vm_compute. reflexivity.
  - reflexivity.
  - split; [exact Hc|]. by vm_compute.
Defined.

(** C10. Whenever the finish function reports an error, which it does by
    returning [-1], or returns [0] because nothing was transitioned, the
    cell the out-parameter points to holds after the call what it held
    before, whatever that was. *)
Theorem xlock_finish_frame (result : GSimpleAsyncResult XlockClosure) cell r :
  service_xlock_finish result (Some cell) = Returned r →
  is_Some (xlock_error r) ∨ xlock_count r = -1 ∨ xlock_count r = 0 →
  xlock_cell r = Some cell
  ∧ (is_Some (xlock_error r) → xlock_count r = -1).
Proof.
  unfold service_xlock_finish, service_xlock_paths_finish,
    GSimpleAsyncResult.propagate_error.
  destruct (GSimpleAsyncResult.error result) as [e|].
  - simpl. by intros [= <-].
  - rewrite bool_decide_eq_true_2 by by eexists.
    destruct (Z.ltb_spec 0 (gint_of_guint
                (Z.of_nat (length (xlocked (GSimpleAsyncResult.op_res result))))))
      as [Hpos|Hle].
    + intros [= <-]. simpl. intros [[e He]|[?|?]]; [done|lia..].
    + intros [= <-]. simpl. split; [done|]. by intros [e He].
Qed.

Lemma xlock_finish_frame_witness :
  let op := secret_service_lock [Sample.item 1 "/c/1"] Sample.prompting_reply Sample.dismissed in
  ∃ r, service_xlock_finish (res op) (Some (Indeterminate 57005)) = Returned r
    ∧ xlock_count r = 0
    ∧ xlock_cell r = Some (Indeterminate 57005).
Proof.
  intros op. eexists. split; [vm_compute; reflexivity|]. split; [reflexivity|].
  apply (xlock_finish_frame (res op) (Indeterminate 57005)).
  - vm_compute. reflexivity.
  - right. right. reflexivity.
Defined.

(** When the chain ended with an error the finish function returns [-1]
    with that error. *)
Lemma xlock_finish_error (result : GSimpleAsyncResult XlockClosure) cell e :
  GSimpleAsyncResult.error result = Some e →
  service_xlock_finish result cell
  = Returned {| xlock_count := -1; xlock_cell := cell; xlock_error := Some e |}.
Proof.
  unfold service_xlock_finish, service_xlock_paths_finish,
    GSimpleAsyncResult.propagate_error.
  intros ->. by destruct cell.
Qed.

(** ** Lookup *)

Lemma lookup_completes_once self :
  ∃ op, secret_service_lookup self true = Some op ∧ callbacks op = [res op].
Proof.
  eexists. split; [reflexivity|].
  unfold call, on_lookup_searched.
  destruct (search_for_paths self) as [[|p u] [|q l]|e u l]; try done.
  - unfold call, on_lookup_unlocked.
    destruct (unlock_paths self [q]) as [[[|p u]|]|e]; try done.
    unfold call, on_lookup_get_secret.
    by destruct (get_secret_for_path self p).
  - unfold call, on_lookup_get_secret. by destruct (get_secret_for_path self p).
  - unfold call, on_lookup_get_secret. by destruct (get_secret_for_path self p).
Qed.

(** C7. The lookup chain searches for paths and then: with an unlocked
    match, fetches the secret of the first unlocked path; else with a
    locked match, calls Unlock on the first locked path alone and fetches
    the secret of the first path reported unlocked, if any; else makes no
    further call. It completes once. Its result is the fetched value; with
    no match, with nothing unlocked, and with no secret for the path the
    result is an absent value and no error. *)
Theorem lookup_sequence self :
  ∃ op, secret_service_lookup self true = Some op
    ∧ callbacks op = [res op]
    ∧ match search_for_paths self with
      | PathsFailed e _ _ =>
          issued op = [SearchForPaths] ∧ secret_service_lookup_finish (res op) = inl e
      | PathsFound (p :: _) _ =>
          issued op = [SearchForPaths; GetSecretForPath p]
          ∧ secret_service_lookup_finish (res op)
            = secret_outcome (get_secret_for_path self p)
      | PathsFound [] (q :: _) =>
          match unlock_paths self [q] with
          | UnlockFailed e =>
              issued op = [SearchForPaths; UnlockPaths [q]]
              ∧ secret_service_lookup_finish (res op) = inl e
          | PathsUnlocked (Some (p :: _)) =>
              issued op = [SearchForPaths; UnlockPaths [q]; GetSecretForPath p]
              ∧ secret_service_lookup_finish (res op)
                = secret_outcome (get_secret_for_path self p)
          | PathsUnlocked _ =>
              issued op = [SearchForPaths; UnlockPaths [q]]
              ∧ secret_service_lookup_finish (res op) = inr None
          end
      | PathsFound [] [] =>
          issued op = [SearchForPaths] ∧ secret_service_lookup_finish (res op) = inr None
      end
    ∧ secret_outcome (SecretFetched None) = inr None.
Proof.
  eexists. split; [reflexivity|].
  unfold call, on_lookup_searched.
  destruct (search_for_paths self) as [[|p u] [|q l]|e u l]; try done.
  - unfold call, on_lookup_unlocked.
    destruct (unlock_paths self [q]) as [[[|p u]|]|e]; try done.
    unfold call, on_lookup_get_secret.
    by destruct (get_secret_for_path self p).
  - unfold call, on_lookup_get_secret. by destruct (get_secret_for_path self p).
  - unfold call, on_lookup_get_secret. by destruct (get_secret_for_path self p).
Qed.

Example lookup_locked_match :
  ∃ op, secret_service_lookup Sample.locked_service true = Some op
    ∧ issued op = [SearchForPaths; UnlockPaths ["/c/6"]; GetSecretForPath "/c/6"]
    ∧ secret_service_lookup_finish (res op) = inr (Some (Sample.plain [Byte.x36])).
Proof. eexists. by repeat split. Qed.

(** ** The blocking variants *)

Lemma get_secrets_completes_once l session proxy_call :
  let op := secret_service_get_secrets l session proxy_call in
  callbacks op = [res op].
Proof.
  unfold secret_service_get_secrets. rewrite get_secrets_collect_eq.
  destruct session as [s|e]; [|done].
  unfold call, on_get_secrets_session, call. simpl.
  by destruct (proxy_call (item_path <$> l) s).
Qed.

Lemma load_items_loop_fails self item_new paths p : ∀ acc,
  p ∈ paths → resolve self item_new p = None →
  ∃ e, load_items_loop self item_new paths acc = inl e.
Proof.
  induction paths as [|q paths IH]; intros acc Hin Hp.
  - by apply elem_of_nil in Hin.
  - simpl. destruct (decide (q = p)) as [->|Hne].
    + unfold resolve in Hp. destruct (self !! p); [done|].
      destruct (item_new p) as [item|e]; [done|]. by exists e.
    + apply elem_of_cons in Hin as [->|Hin]; [done|].
      destruct (self !! q) as [item|]; [by apply IH|].
      destruct (item_new q) as [item|e]; [by apply IH|by exists e].
Qed.

Lemma omap_agree {A B : Type} (f g : A → option B) (l : list A) :
  (∀ x, x ∈ l → f x = g x) → omap f l = omap g l.
Proof.
  induction l as [|x l IH]; intros H; [done|].
  change (match f x with Some y => y :: omap f l | None => omap f l end
          = match g x with Some y => y :: omap g l | None => omap g l end).
  rewrite (H x) by apply list_elem_of_here.
  rewrite IH; [done|]. intros y Hy. apply H. by apply list_elem_of_further.
Qed.

(** C5, as stated, fails for the search. With three failing loads the
    finished chain reports the error of the last to arrive, while
    [secret_service_search_sync] stops at the first failing path in the
    order of the reply and reports that error. And with a failing load
    among the locked paths only, [secret_service_search_sync] has by then
    stored the list of unlocked handles, which the finish function never
    writes on failure. *)
Lemma search_sync_differs_from_finish :
  (∃ op, secret_service_search ∅ (PathsFound ["/c/2"; "/c/4"; "/c/5"] [])
           (Sample.failing_loader <$> ["/c/4"; "/c/2"; "/c/5"]) = Returned op
     ∧ sync_result op = Some (res op)
     ∧ secret_service_search_finish (res op) true true
       = Returned {| search_ok := false; out_unlocked := None; out_locked := None;
                     out_error := Some Sample.not_found |}
     ∧ secret_service_search_sync ∅ (PathsFound ["/c/2"; "/c/4"; "/c/5"] [])
         Sample.failing_loader true true
       = Returned {| search_ok := false; out_unlocked := None; out_locked := None;
                     out_error := Some Sample.io_error |})
  ∧ (∃ op, secret_service_search ∅ (PathsFound ["/c/3"] ["/c/2"])
             (Sample.failing_loader <$> ["/c/3"; "/c/2"]) = Returned op
       ∧ sync_result op = Some (res op)
       ∧ secret_service_search_finish (res op) true true
         = Returned {| search_ok := false; out_unlocked := None; out_locked := None;
                       out_error := Some Sample.io_error |}
       ∧ secret_service_search_sync ∅ (PathsFound ["/c/3"] ["/c/2"])
           Sample.failing_loader true true
         = Returned {| search_ok := false; out_unlocked := Some [Sample.item 9 "/c/3"];
                       out_locked := None; out_error := Some Sample.io_error |}).
Proof. split; (eexists; split; [reflexivity|]); by repeat split. Qed.

Lemma search_sync_all_loaded self item_new u l wu wl :
  (∀ p, p ∈ u ++ l → is_Some (resolve self item_new p)) →
  secret_service_search_sync self (PathsFound u l) item_new wu wl
  = Returned {| search_ok := true;
                out_unlocked := if wu then Some (omap (resolve self item_new) u) else None;
                out_locked := if wl then Some (omap (resolve self item_new) l) else None;
                out_error := None |}.
Proof.
  intros Hall. unfold secret_service_search_sync, service_load_items_sync.
  rewrite !load_items_loop_all.
  - by destruct wu, wl.
  - intros p Hp. apply Hall, elem_of_app. by right.
  - intros p Hp. apply Hall, elem_of_app. by left.
Qed.

Lemma search_sync_some_failed self item_new u l p :
  p ∈ u ++ l → resolve self item_new p = None →
  ∃ r, secret_service_search_sync self (PathsFound u l) item_new true true = Returned r
    ∧ search_ok r = false.
Proof.
  intros Hin Hp. unfold secret_service_search_sync, service_load_items_sync.
  destruct (load_items_loop self item_new u []) as [e|hs] eqn:Hu; simpl.
  - by eexists.
  - apply elem_of_app in Hin as [Hin|Hin].
    + destruct (load_items_loop_fails self item_new u p [] Hin Hp) as [e He]. congruence.
    + destruct (load_items_loop_fails self item_new l p [] Hin Hp) as [e ->]. by eexists.
Qed.

Lemma remove_completes_once self :
  ∃ r op, secret_service_remove self true = Some r
    ∧ (r = Clean op ∨ r = FreedIndeterminate op)
    ∧ callbacks op = [res op].
Proof.
  unfold secret_service_remove, on_search_delete_password.
  destruct (delete_search_for_paths self) as [[|p u] [|q l]|e [u|] [l|]];
    eexists; eexists; (split; [reflexivity|]);
    (split; [(by left) || (by right)|]); try done;
    unfold call, on_delete_password_complete;
    match goal with |- context [delete_path self ?x true] =>
      by destruct (delete_path self x true) end.
Qed.

(** C5 (amended). The blocking variants that run the asynchronous chain on
    a private loop (get-secrets, lock, unlock, store, lookup, remove,
    set-alias) return what the finish function returns on the result the
    chain completed with. [secret_service_read_alias_sync], written
    separately, does so too. [secret_service_search_sync] is written
    separately, as a path search followed by one blocking load after the
    other: after a successful path search whose reply names no path
    without live instance twice, it returns what the finish function of
    the asynchronous chain returns whenever every load the chain requests
    succeeds; when one of them fails and both lists are asked for, both
    return [FALSE]. *)
Theorem sync_variants_agree decode_secret self item_new u l order wu wl :
  registry_wf self → loader_wf item_new →
  order ≡ₚ unresolved self (u ++ l) →
  NoDup (unresolved self (u ++ l)) →
  Z.of_nat (length order) < 2 ^ 32 →
  (∀ items session proxy_call,
     secret_service_get_secrets_sync decode_secret items session proxy_call
     = Some (secret_service_get_secrets_finish decode_secret
               (res (secret_service_get_secrets items session proxy_call))))
  ∧ (∀ service, ∃ op,
       secret_service_lookup service true = Some op
       ∧ secret_service_lookup_sync service true
         = Some (secret_service_lookup_finish (res op)))
  ∧ (∀ objects proxy_call prompter cell,
       secret_service_unlock_sync objects proxy_call prompter cell
       = Some (secret_service_unlock_finish
                 (res (secret_service_unlock objects proxy_call prompter)) cell)
       ∧ secret_service_lock_sync objects proxy_call prompter cell
         = Some (secret_service_lock_finish
                   (res (secret_service_lock objects proxy_call prompter)) cell))
  ∧ (∀ service, ∃ r,
       secret_service_remove service true = Some r
       ∧ secret_service_remove_sync service true
         = Some (freed_map (λ op, secret_service_remove_finish (res op)) r))
  ∧ (∀ interface validate create_item schema attributes collection_path label value op,
       secret_service_store interface validate create_item schema attributes
         collection_path label value = Some op →
       secret_service_store_sync interface validate create_item schema attributes
         collection_path label value
       = Some (secret_service_store_finish (res op)))
  ∧ (∀ set_alias alias collection,
       secret_service_set_alias_sync set_alias alias collection
       = Some (secret_service_set_alias_finish
                 (res (secret_service_set_alias set_alias alias collection))))
  ∧ (∀ service alias,
       secret_service_read_alias_sync service alias
       = secret_service_read_alias_finish (res (secret_service_read_alias service alias)))
  ∧ ∃ op, secret_service_search self (PathsFound u l) (item_new <$> order) = Returned op
      ∧ sync_result op = Some (res op)
      ∧ ((∀ p, p ∈ order → load_error (item_new p) = None) →
           secret_service_search_sync self (PathsFound u l) item_new wu wl
           = secret_service_search_finish (res op) wu wl)
      ∧ (∀ p, p ∈ order → is_Some (load_error (item_new p)) →
           ∃ r r',
             secret_service_search_sync self (PathsFound u l) item_new true true
             = Returned r
             ∧ secret_service_search_finish (res op) true true = Returned r'
             ∧ search_ok r = false ∧ search_ok r' = false).
Proof.
  intros Hself Hnew Hperm _ Hlt. repeat apply conj.
  - intros l0 session proxy_call. unfold secret_service_get_secrets_sync, sync_result.
    by rewrite get_secrets_completes_once.
  - intros service. destruct (lookup_completes_once service) as (op&Hop&Hc).
    exists op. split; [done|]. unfold secret_service_lookup_sync.
    rewrite Hop. simpl. unfold sync_result. by rewrite Hc.
  - intros objs proxy_call prompter cell.
    unfold secret_service_unlock_sync, secret_service_lock_sync, sync_result,
      secret_service_unlock, secret_service_lock.
    destruct (service_xlock_chain "Unlock" objs proxy_call prompter) as (->&_).
    destruct (service_xlock_chain "Lock" objs proxy_call prompter) as (->&_).
    done.
  - intros service. destruct (remove_completes_once service) as (r&op&Hr&Hcase&Hc).
    exists r. split; [done|]. unfold secret_service_remove_sync. rewrite Hr. simpl.
    destruct Hcase as [-> | ->]; simpl; unfold sync_result; by rewrite Hc.
  - intros interface validate create_item schema attributes collection_path label value op.
    unfold secret_service_store_sync, secret_service_store.
    destruct (match schema with
              | Some schema0 => negb (validate schema0 attributes)
              | None => false
              end); [done|].
    intros [= <-]. simpl. unfold sync_result, secret_service_create_item_path, call.
    by destruct (create_item _).
  - intros set_alias alias collection.
    unfold secret_service_set_alias_sync, sync_result, secret_service_set_alias,
      secret_service_set_alias_path, call.
    by destruct (set_alias _).
  - intros service alias.
    unfold secret_service_read_alias_sync, secret_service_read_alias, call,
      on_read_alias_path.
    destruct (read_alias_path service alias) as [[p|]|e]; [|done..].
    unfold _secret_service_find_collection_instance. simpl.
    destruct (collections service !! p) as [c|]; [done|].
    unfold call, on_read_alias_collection.
    by destruct (secret_collection_new service p).
  - destruct (search_found self u l (item_new <$> order)) as (op&Hrun&Hc&He&Hm&Hu&Hk&Hi).
    { by rewrite length_fmap, Hperm. }
    { by rewrite length_fmap. }
    exists op. split; [done|]. split; [unfold sync_result; by rewrite Hc|]. split.
    + intros Hall.
      pose proof (search_table_resolved self item_new u l order Hself Hnew Hperm Hall) as Hres.
      rewrite <- Hm in Hres.
      rewrite search_sync_all_loaded.
      2:{ intros p Hp. destruct (Hres p Hp) as (_&h&Hh&_). by exists h. }
      unfold secret_service_search_finish, GSimpleAsyncResult.propagate_error.
      rewrite He, stored_error_none.
      2:{ intros r (p&->&Hp)%list_elem_of_fmap. by apply Hall. }
      fold (closure op). rewrite Hu, Hk, !search_finish_build_omap.
      rewrite (omap_agree (λ p, items (closure op) !! p) (resolve self item_new) u).
      2:{ intros p Hp. apply Hres, elem_of_app. by left. }
      rewrite (omap_agree (λ p, items (closure op) !! p) (resolve self item_new) l).
      2:{ intros p Hp. apply Hres, elem_of_app. by right. }
      by destruct wu, wl.
    + intros p Hp [e Hfail].
      assert (Hin : p ∈ unresolved self (u ++ l)) by by rewrite <- Hperm.
      unfold unresolved in Hin. apply list_elem_of_filter in Hin as [Hnone Hin].
      destruct (search_sync_some_failed self item_new u l p Hin) as (r&Hr&Hok).
      { unfold resolve. rewrite Hnone. by destruct (item_new p). }
      destruct (stored_error_failed (item_new <$> order) (item_new p)) as [e' Hse];
        [by apply list_elem_of_fmap_2|by eexists|].
      exists r, {| search_ok := false; out_unlocked := None; out_locked := None;
                   out_error := Some e' |}.
      split; [done|]. split; [|done].
      unfold secret_service_search_finish, GSimpleAsyncResult.propagate_error.
      by rewrite He, Hse.
Qed.

Lemma sync_variants_agree_witness :
  secret_service_search_sync Sample.registry (PathsFound ["/c/1"; "/c/2"] ["/c/3"])
    Sample.loader true true
  = Returned {| search_ok := true;
                out_unlocked := Some [Sample.item 1 "/c/1"; Sample.item 9 "/c/2"];
                out_locked := Some [Sample.item 9 "/c/3"];
                out_error := None |}
  ∧ ∃ op, secret_service_search Sample.registry (PathsFound ["/c/1"; "/c/2"] ["/c/3"])
            (Sample.loader <$> ["/c/3"; "/c/2"]) = Returned op
      ∧ secret_service_search_sync Sample.registry (PathsFound ["/c/1"; "/c/2"] ["/c/3"])
          Sample.loader true true
        = secret_service_search_finish (res op) true true.
Proof.
  split; [reflexivity|].
  destruct (sync_variants_agree Sample.decode Sample.registry Sample.loader
              ["/c/1"; "/c/2"] ["/c/3"] ["/c/3"; "/c/2"] true true)
    as (_&_&_&_&_&_&_&op&Hrun&_&Hall&_).
  - exact sample_registry_wf.
  - exact sample_loader_wf.
  - vm_compute. apply perm_swap.
  - by apply (bool_decide_unpack _).
  - vm_compute. reflexivity.
  - exists op. split; [exact Hrun|]. apply Hall. reflexivity.
Defined.

(** ** Further properties of the search chain *)

Lemma search_started self u l :
  let n := Z.of_nat (length (unresolved self (u ++ l))) in
  ∃ op, on_search_paths self (PathsFound u l) (operation_new search_closure_new) = Returned op
    ∧ issued op = unresolved self (u ++ l)
    ∧ loading (closure op) = guint n
    ∧ items (closure op) = take_resolved self ∅ (u ++ l)
    ∧ GSimpleAsyncResult.error (res op) = None
    ∧ callbacks op = (if guint n =? 0 then [res op] else []).
Proof.
  intros n. unfold on_search_paths.
  set (op0 := set_closure _ (operation_new search_closure_new)).
  change (unlocked (closure op0)) with (Some u).
  destruct (fan_out self u op0 0) as (He1&Hc1&Hu1&Hk1&Hi1&Hl1&Hm1); [done|].
  set (op1 := foldl (search_load_item_async self) op0 u) in *.
  rewrite Hk1. change (locked (closure op0)) with (Some l).
  destruct (fan_out self l op1 _ Hl1) as (He2&Hc2&Hu2&Hk2&Hi2&Hl2&Hm2).
  set (op2 := foldl (search_load_item_async self) op1 l) in *.
  assert (Hiss : issued op2 = unresolved self (u ++ l)).
  { rewrite Hi2, Hi1. unfold unresolved. by rewrite filter_app. }
  assert (Hitems : items (closure op2) = take_resolved self ∅ (u ++ l)).
  { rewrite Hm2, Hm1. unfold take_resolved. by rewrite foldl_app. }
  assert (Hload : loading (closure op2) = guint n).
  { rewrite Hl2. subst n. unfold unresolved. rewrite filter_app, length_app.
    f_equal. lia. }
  rewrite Hload.
  destruct (Z.eqb_spec (guint n) 0) as [H0|H0]; eexists; (split; [reflexivity|]).
  - change (issued op2 = unresolved self (u ++ l)
            ∧ loading (closure op2) = guint n
            ∧ items (closure op2) = take_resolved self ∅ (u ++ l)
            ∧ GSimpleAsyncResult.error (res op2) = None
            ∧ callbacks op2 ++ [res op2] = [res op2]).
    by rewrite Hc2, Hc1, He2, He1.
  - by rewrite Hc2, Hc1, He2, He1.
Qed.

Lemma deliver_some rs : ∀ op : SearchOp,
  Z.of_nat (length rs) < loading (closure op) < 2 ^ 32 →
  callbacks (deliver_loads rs op) = callbacks op
  ∧ GSimpleAsyncResult.error (res (deliver_loads rs op))
    = stored_error (GSimpleAsyncResult.error (res op)) rs
  ∧ loading (closure (deliver_loads rs op)) = loading (closure op) - Z.of_nat (length rs).
Proof.
  induction rs as [|r rs IH]; intros op Hn.
  - simpl. split; [done|]. split; [done|]. lia.
  - simpl length in Hn.
    destruct (on_search_loaded_step r op) as (He&_&_&_&_&Hl&Hc); [lia|].
    change (deliver_loads (r :: rs) op) with (deliver_loads rs (on_search_loaded r op)).
    destruct (IH (on_search_loaded r op)) as (Hc'&He'&Hl'); [lia|].
    rewrite Hc', He', Hl', Hc, He, Hl.
    destruct (Z.eqb_spec (loading (closure op)) 1) as [H1|_]; [lia|].
    split; [done|]. split; [done|]. simpl length. lia.
Qed.

(** While fewer results have been delivered than loads were requested, the
    callback has not run: a blocking caller is still waiting. The error of
    a failed load is already stored. *)
Theorem search_not_completed_before_last_load self u l rs :
  (length rs < length (unresolved self (u ++ l)))%nat →
  Z.of_nat (length (unresolved self (u ++ l))) < 2 ^ 32 →
  ∃ op, secret_service_search self (PathsFound u l) rs = Returned op
    ∧ callbacks op = []
    ∧ sync_result op = None
    ∧ GSimpleAsyncResult.error (res op) = last (omap load_error rs).
Proof.
  intros Hlt Hbound. unfold secret_service_search.
  destruct (search_started self u l) as (op&->&_&Hl&_&He&Hc).
  rewrite guint_small in Hl, Hc by lia.
  destruct (Z.eqb_spec (Z.of_nat (length (unresolved self (u ++ l)))) 0) as [H0|_]; [lia|].
  destruct (deliver_some rs op) as (Hc'&He'&_); [lia|].
  eexists. split; [reflexivity|]. unfold sync_result.
  by rewrite Hc', Hc, He', He, stored_error_last.
Qed.

Lemma search_not_completed_before_last_load_witness :
  ∃ op, secret_service_search Sample.registry (PathsFound ["/c/1"; "/c/2"] ["/c/3"])
          [LoadFailed Sample.io_error] = Returned op
    ∧ callbacks op = []
    ∧ GSimpleAsyncResult.error (res op) = Some Sample.io_error.
Proof.
  destruct (search_not_completed_before_last_load Sample.registry
              ["/c/1"; "/c/2"] ["/c/3"] [LoadFailed Sample.io_error])
    as (op&Hrun&Hc&_&He).
  - vm_compute. lia.
  - vm_compute. reflexivity.
  - exists op. repeat split; assumption.
Defined.

(** The loads [on_search_paths] requests are the paths of the reply that
    have no live instance: the unlocked ones first, then the locked ones,
    each in the order of the reply and once per occurrence. *)
Theorem search_requests_unresolved self u l :
  ∃ op, on_search_paths self (PathsFound u l) (operation_new search_closure_new) = Returned op
    ∧ issued op = filter (λ p, self !! p = None) u ++ filter (λ p, self !! p = None) l
    ∧ (∀ p, p ∈ issued op ↔ p ∈ u ++ l ∧ self !! p = None).
Proof.
  destruct (search_started self u l) as (op&Hrun&Hi&_).
  exists op. split; [done|]. rewrite Hi. unfold unresolved. split.
  - by rewrite filter_app.
  - intros p. rewrite list_elem_of_filter. tauto.
Qed.

(** When every path of the reply has a live instance (in particular when
    the reply is empty), [on_search_paths] requests no load and completes
    on the spot, and the finish function returns the live instances, path
    by path. *)
Theorem search_all_live self u l :
  registry_wf self →
  (∀ p, p ∈ u ++ l → is_Some (self !! p)) →
  ∃ op us ls,
    on_search_paths self (PathsFound u l) (operation_new search_closure_new) = Returned op
    ∧ issued op = []
    ∧ callbacks op = [res op]
    ∧ secret_service_search_finish (res op) true true
      = Returned {| search_ok := true; out_unlocked := Some us; out_locked := Some ls;
                    out_error := None |}
    ∧ Forall2 (λ p h, self !! p = Some h) u us
    ∧ Forall2 (λ p h, self !! p = Some h) l ls.
Proof.
  intros Hwf Hlive.
  assert (Hnone : unresolved self (u ++ l) = []).
  { unfold unresolved. apply elem_of_nil_inv. intros p [Hp Hin]%list_elem_of_filter.
    destruct (Hlive p Hin) as [h Hh]. congruence. }
  destruct (search_found self u l []) as (op&Hrun&Hc&He&Hm&Hu&Hk&Hi).
  { by rewrite Hnone. }
  { done. }
  unfold secret_service_search in Hrun.
  destruct (on_search_paths self (PathsFound u l) (operation_new search_closure_new))
    as [op'|] eqn:Hon; [|done].
  injection Hrun as Hop. change (op' = op) in Hop. subst op'.
  assert (Hlook : ∀ p, p ∈ u ++ l →
            items (closure op) !! p = self !! p
            ∧ ∃ h, self !! p = Some h ∧ item_path h = p).
  { intros p Hin. destruct (Hlive p Hin) as [h Hh]. rewrite Hm. simpl.
    rewrite (take_resolved_lookup_live self ∅ (u ++ l) p h) by done.
    split; [done|]. exists h. split; [done|]. by apply Hwf. }
  destruct (omap_resolved (λ p, items (closure op) !! p) (λ p, self !! p) u) as (Hfu&_).
  { intros p Hp. apply Hlook, elem_of_app. by left. }
  destruct (omap_resolved (λ p, items (closure op) !! p) (λ p, self !! p) l) as (Hfl&_).
  { intros p Hp. apply Hlook, elem_of_app. by right. }
  exists op, (search_finish_build u (closure op)), (search_finish_build l (closure op)).
  split; [done|]. split; [by rewrite Hi, Hnone|]. split; [done|].
  rewrite !search_finish_build_omap. split; [|done].
  unfold secret_service_search_finish, GSimpleAsyncResult.propagate_error.
  rewrite He. simpl. fold (closure op). by rewrite Hu, Hk, !search_finish_build_omap.
Qed.

Lemma search_all_live_witness :
  ∃ op, on_search_paths Sample.registry (PathsFound ["/c/1"] ["/c/1"])
          (operation_new search_closure_new) = Returned op
    ∧ issued op = []
    ∧ callbacks op = [res op].
Proof.
  destruct (search_all_live Sample.registry ["/c/1"] ["/c/1"])
    as (op&us&ls&Hrun&Hi&Hc&_).
  - exact sample_registry_wf.
  - intros p Hp. repeat (apply elem_of_cons in Hp as [->|Hp]); try (by eexists).
    by apply elem_of_nil in Hp.
  - exists op. repeat split; assumption.
Defined.

(** [search_finish_build] on an arbitrary table: the handles it returns
    stand, in order, for the paths that have an entry; a path without an
    entry is skipped and leaves no gap. *)
Theorem search_finish_build_paths paths c :
  table_wf (items c) →
  item_path <$> search_finish_build paths c
  = filter (λ p, is_Some (items c !! p)) paths.
Proof.
  intros Hwf. rewrite search_finish_build_omap.
  induction paths as [|p ps IH]; [done|].
  change (omap (λ p, items c !! p) (p :: ps))
    with (match items c !! p with
          | Some y => y :: omap (λ p, items c !! p) ps
          | None => omap (λ p, items c !! p) ps
          end).
  rewrite filter_cons. destruct (items c !! p) as [h|] eqn:Hp.
  - rewrite decide_True by by eexists. rewrite fmap_cons, IH. f_equal. by apply Hwf.
  - rewrite decide_False; [done|]. by intros [? ?].
Qed.

Lemma search_finish_build_paths_witness :
  item_path <$> search_finish_build ["/c/3"; "/c/2"; "/c/1"; "/c/3"] Fixture.closure13
  = ["/c/3"; "/c/1"; "/c/3"].
Proof.
  rewrite (search_finish_build_paths ["/c/3"; "/c/2"; "/c/1"; "/c/3"] Fixture.closure13).
  - reflexivity.
  - intros p h. simpl. rewrite lookup_insert_Some, lookup_singleton_Some.
    intros [[<- <-]|[_ [<- <-]]]; reflexivity.
Defined.

(** ** The blocking loads *)

Lemma Forall2_resolve_paths self item_new paths hs :
  registry_wf self → loader_wf item_new →
  Forall2 (λ q h, resolve self item_new q = Some h) paths hs →
  item_path <$> hs = paths.
Proof.
  intros Hself Hnew. induction 1 as [|q h paths hs Hq _ IH]; [done|].
  rewrite fmap_cons, IH. f_equal. by eapply resolve_path.
Qed.

(** When [service_load_items_sync] succeeds, its list has one handle per
    path, in the order of the paths, each standing for its path. *)
Theorem load_items_sync_paths self item_new paths hs :
  registry_wf self → loader_wf item_new →
  service_load_items_sync self item_new paths = inr hs →
  item_path <$> hs = paths ∧ length hs = length paths.
Proof.
  intros Hself Hnew Hsync.
  apply load_items_loop_resolves in Hsync as (hs'&->&Hf). simpl.
  split; [by eapply Forall2_resolve_paths|]. symmetry. by eapply Forall2_length.
Qed.

Lemma load_items_sync_paths_witness :
  item_path <$> [Sample.item 1 "/c/1"; Sample.item 9 "/c/2"] = ["/c/1"; "/c/2"]
  ∧ length [Sample.item 1 "/c/1"; Sample.item 9 "/c/2"] = length ["/c/1"; "/c/2"].
Proof.
  apply (load_items_sync_paths Sample.registry Sample.loader).
  - exact sample_registry_wf.
  - exact sample_loader_wf.
  - reflexivity.
Defined.

Lemma load_items_loop_first_failure self item_new pre : ∀ acc p post e,
  Forall (λ q, is_Some (resolve self item_new q)) pre →
  self !! p = None → item_new p = LoadFailed e →
  load_items_loop self item_new (pre ++ p :: post) acc = inl e.
Proof.
  induction pre as [|q pre IH]; intros acc p post e Hpre Hp He; simpl.
  - by rewrite Hp, He.
  - apply Forall_cons in Hpre as [[h Hq] Hpre]. unfold resolve in Hq.
    destruct (self !! q) as [item|]; [by apply IH|].
    destruct (item_new q) as [item|e']; [by apply IH|done].
Qed.

(** [service_load_items_sync] stops at the first path that has no live
    instance and fails to load: it returns that error, whatever paths
    follow and whatever loading them would give. *)
Theorem load_items_sync_first_failure self item_new pre p post e :
  Forall (λ q, is_Some (resolve self item_new q)) pre →
  self !! p = None → item_new p = LoadFailed e →
  service_load_items_sync self item_new (pre ++ p :: post) = inl e.
Proof. intros. by apply load_items_loop_first_failure. Qed.

Lemma load_items_sync_first_failure_witness :
  service_load_items_sync Sample.registry Sample.failing_loader
    (["/c/1"; "/c/3"] ++ "/c/4" :: ["/c/2"; "/c/5"]) = inl Sample.cancelled.
Proof.
  apply load_items_sync_first_failure.
  - repeat constructor; by eexists.
  - reflexivity.
  - reflexivity.
Defined.

(** ** Further properties of GetSecrets *)

Lemma items_table_after (l2 : list SecretItem) : ∀ (m : gmap string SecretItem) p,
  Forall (λ h', item_path h' ≠ p) l2 →
  foldl (λ m item, <[item_path item := item]> m) m l2 !! p = m !! p.
Proof.
  induction l2 as [|h' l2 IH]; intros m p Hl2; [done|].
  apply Forall_cons in Hl2 as [Hne Hl2]. simpl.
  rewrite IH by done. by apply lookup_insert_ne.
Qed.

Lemma items_table_last l1 h l2 :
  Forall (λ h', item_path h' ≠ item_path h) l2 →
  items_table (l1 ++ h :: l2) !! item_path h = Some h.
Proof.
  intros Hl2. unfold items_table. rewrite foldl_app. simpl.
  rewrite items_table_after by done. apply lookup_insert_eq.
Qed.

Lemma items_table_covers l : ∀ p,
  p ∈ item_path <$> l → is_Some (items_table l !! p).
Proof.
  unfold items_table.
  cut (∀ (m : gmap string SecretItem) p,
         is_Some (m !! p) ∨ p ∈ item_path <$> l →
         is_Some (foldl (λ m item, <[item_path item := item]> m) m l !! p)).
  { intros H p Hp. apply H. by right. }
  induction l as [|h l IH]; intros m p Hp.
  - destruct Hp as [Hm|Hin]; [done|]. by apply elem_of_nil in Hin.
  - simpl. apply IH. destruct (decide (item_path h = p)) as [<-|Hne].
    + left. rewrite lookup_insert_eq. by eexists.
    + destruct Hp as [Hm|Hin].
      * left. by rewrite lookup_insert_ne.
      * right. rewrite fmap_cons in Hin. apply elem_of_cons in Hin as [->|Hin]; done.
Qed.

Section GetSecretsMore.
Variable decode_secret : EncryptedSecret → option SecretValue.

Lemma get_secrets_returned l s proxy_call out :
  proxy_call (item_path <$> l) s = SecretsReturned out →
  let op := secret_service_get_secrets l (SessionReady s) proxy_call in
  issued op = [EnsureSession; GetSecrets (item_path <$> l) s]
  ∧ ∃ R, secret_service_get_secrets_finish decode_secret (res op) = Returned (inr R)
      ∧ ∀ h v, R !! h = Some v
               ↔ items_table l !! item_path h = Some h
                 ∧ _secret_service_decode_get_secrets_all decode_secret out !! item_path h
                   = Some v.
Proof.
  intros Hout. unfold secret_service_get_secrets. rewrite get_secrets_collect_eq.
  unfold call, on_get_secrets_session, call. simpl. rewrite Hout.
  split; [done|]. eexists. split; [reflexivity|].
  intros h v. apply rekey_lookup, items_table_wf.
Qed.

(** When several input handles stand for the same path, only the last of
    them can be a key of the result, and it is given the value decoded for
    that path. *)
Theorem get_secrets_last_handle_wins l1 h l2 s proxy_call out :
  Forall (λ h', item_path h' ≠ item_path h) l2 →
  proxy_call (item_path <$> (l1 ++ h :: l2)) s = SecretsReturned out →
  ∃ R, secret_service_get_secrets_finish decode_secret
         (res (secret_service_get_secrets (l1 ++ h :: l2) (SessionReady s) proxy_call))
       = Returned (inr R)
    ∧ (∀ h' v, R !! h' = Some v → item_path h' = item_path h → h' = h)
    ∧ R !! h = _secret_service_decode_get_secrets_all decode_secret out !! item_path h.
Proof.
  intros Hl2 Hout.
  destruct (get_secrets_returned _ _ _ _ Hout) as (_&R&HR&Hkeys).
  pose proof (items_table_last l1 h l2 Hl2) as Hlast.
  exists R. split; [done|]. split.
  - intros h' v [Ht _]%Hkeys Hp. rewrite Hp, Hlast in Ht. congruence.
  - apply option_eq. intros v. rewrite Hkeys. tauto.
Qed.

(** With no input handle the chain still establishes the session and makes
    the call, with an empty array of paths, and whatever the reply holds
    the result is the empty table. *)
Theorem get_secrets_no_items s proxy_call out :
  proxy_call [] s = SecretsReturned out →
  let op := secret_service_get_secrets [] (SessionReady s) proxy_call in
  issued op = [EnsureSession; GetSecrets [] s]
  ∧ secret_service_get_secrets_finish decode_secret (res op) = Returned (inr ∅).
Proof.
  intros Hout op.
  destruct (get_secrets_returned [] s proxy_call out Hout) as (Hi&R&HR&Hkeys).
  split; [done|]. fold op in HR. rewrite HR. do 2 f_equal.
  apply map_eq. intros h. rewrite lookup_empty. apply option_eq. intros v.
  rewrite Hkeys. unfold items_table. simpl. rewrite lookup_empty.
  split; [by intros [? _]|done].
Qed.

(** On a reply with one entry per path the single-secret decoder returns
    what the table of all decoded secrets holds for the path of the first
    entry; it returns nothing for an empty reply, and nothing when the
    first entry does not decode, whatever follows. *)
Theorem decode_first_agrees_with_all out :
  one_entry_per_path out →
  _secret_service_decode_get_secrets_first decode_secret out
  = head out ≫= (λ e, _secret_service_decode_get_secrets_all decode_secret out !! e.1).
Proof.
  intros Hone. destruct out as [|[p x] rest]; [done|]. simpl.
  destruct (decode_secret x) as [v|] eqn:Hd.
  - symmetry. eapply decode_all_lookup; [done|apply list_elem_of_here|done].
  - symmetry. apply eq_None_not_Some. intros [v Hv].
    apply decode_all_Some in Hv as (x'&Hin&Hd').
    rewrite (Hone p x' x Hin) in Hd' by apply list_elem_of_here. congruence.
Qed.
End GetSecretsMore.

Lemma get_secrets_last_handle_wins_witness :
  let reply (_ : list ObjectPath) (_ : ObjectPath) :=
    SecretsReturned [("/c/1", Sample.encrypted [Byte.x61])] in
  ∃ R, secret_service_get_secrets_finish Sample.decode
         (res (secret_service_get_secrets ([Fixture.ha] ++ Fixture.ha' :: [Fixture.hb])
                 (SessionReady "/session/1") reply))
       = Returned (inr R)
    ∧ R !! Fixture.ha' = Some (Sample.plain [Byte.x61])
    ∧ R !! Fixture.ha = None.
Proof.
  intros reply.
  destruct (get_secrets_last_handle_wins Sample.decode [Fixture.ha] Fixture.ha' [Fixture.hb]
              "/session/1" reply [("/c/1", Sample.encrypted [Byte.x61])])
    as (R&HR&Honly&Hlast).
  - repeat constructor. discriminate.
  - reflexivity.
  - exists R. split; [exact HR|]. split.
    + rewrite Hlast. by vm_compute.
    + destruct (R !! Fixture.ha) as [v|] eqn:Hv; [|reflexivity].
      specialize (Honly Fixture.ha v Hv eq_refl). discriminate Honly.
Defined.

Lemma get_secrets_no_items_witness :
  let reply (_ : list ObjectPath) (_ : ObjectPath) :=
    SecretsReturned [("/c/1", Sample.encrypted [Byte.x61])] in
  secret_service_get_secrets_finish Sample.decode
    (res (secret_service_get_secrets [] (SessionReady "/session/1") reply))
  = Returned (inr ∅).
Proof.
  intros reply.
  apply (get_secrets_no_items Sample.decode "/session/1" reply
           [("/c/1", Sample.encrypted [Byte.x61])]).
  reflexivity.
Defined.

Lemma decode_first_agrees_with_all_witness :
  _secret_service_decode_get_secrets_first Sample.decode
    [("/c/1", Sample.encrypted []); ("/c/3", Sample.encrypted [Byte.x63])]
  = None.
Proof.
  rewrite (decode_first_agrees_with_all Sample.decode).
  - by vm_compute.
  - intros p x x' Hx Hx'.
    repeat (apply elem_of_cons in Hx as [[= -> ->]|Hx]);
      repeat (apply elem_of_cons in Hx' as [[= ->]|Hx']);
      try done; by apply elem_of_nil in Hx || by apply elem_of_nil in Hx'.
Defined.

(** ** Further properties of Lock / Unlock *)

(** The chain makes one method call, with the paths of the input objects
    in input order, and after it at most one prompt: a prompt is run only
    when the call succeeded and returned a prompt path that is not the
    empty one. *)
Theorem xlock_requests method l proxy_call prompter :
  issued (service_xlock_async method l proxy_call prompter)
  = XlockCall method (item_path <$> l)
    :: match proxy_call method (item_path <$> l) with
       | XlockReturned _ pr => if _secret_util_empty_path pr then [] else [Prompt pr]
       | XlockFailed _ => []
       end.
Proof.
  unfold service_xlock_async. rewrite xlock_collect_eq. simpl.
  unfold on_xlock_called.
  destruct (proxy_call method (item_path <$> l)) as [xl pr|e]; [|done].
  destruct (_secret_util_empty_path pr); [done|].
  unfold call, on_xlock_prompted.
  by destruct (prompter pr) as [[retval|] [e|]].
Qed.

(** When the reply of the method call carries a prompt, the paths that
    same reply reports as transitioned are dropped: the chain ends in the
    same state whatever they were, and the paths it holds are those the
    prompt returned. *)
Theorem xlock_prompt_discards_reported method l xl xl' pr prompter :
  _secret_util_empty_path pr = false →
  let op := service_xlock_async method l (λ _ _, XlockReturned xl pr) prompter in
  let op' := service_xlock_async method l (λ _ _, XlockReturned xl' pr) prompter in
  res op = res op'
  ∧ xlocked (closure op) = default [] (prompt_retval (prompter pr)).
Proof.
  intros Hpr. unfold service_xlock_async. rewrite xlock_collect_eq. simpl.
  unfold on_xlock_called. rewrite Hpr.
  unfold call, on_xlock_prompted.
  by destruct (prompter pr) as [[retval|] [e|]].
Qed.

Lemma xlock_prompt_discards_reported_witness :
  let l := [Fixture.ha; Fixture.hb] in
  let op := secret_service_unlock l (Fixture.prompted_reply ["/c/1"]) Fixture.confirmed in
  xlocked (closure op) = ["/c/2"]
  ∧ service_xlock_finish (res op) (Some (GList []))
    = Returned {| xlock_count := 1; xlock_cell := Some (GList [Fixture.hb]);
                  xlock_error := None |}.
Proof.
  intros l op.
  destruct (xlock_prompt_discards_reported "Unlock" l ["/c/1"] [] "/prompt/7"
              Fixture.confirmed) as [_ Hx]; [reflexivity|].
  split; [exact Hx|]. by vm_compute.
Defined.

(** After a prompt the result of the finish function depends on the prompt
    alone: with an error from the prompt it returns [-1] and that error;
    when the prompt is dismissed (no value, no error) it returns [0]
    without an error. In both cases the caller's cell is left as it was. *)
Theorem xlock_after_prompt method l xl pr prompter cell :
  _secret_util_empty_path pr = false →
  let op := service_xlock_async method l (λ _ _, XlockReturned xl pr) prompter in
  (∀ e, prompt_error (prompter pr) = Some e →
        service_xlock_finish (res op) (Some cell)
        = Returned {| xlock_count := -1; xlock_cell := Some cell; xlock_error := Some e |})
  ∧ (prompter pr = {| prompt_retval := None; prompt_error := None |} →
     service_xlock_finish (res op) (Some cell)
     = Returned {| xlock_count := 0; xlock_cell := Some cell; xlock_error := None |}).
Proof.
  intros Hpr op.
  destruct (service_xlock_chain method l (λ _ _, XlockReturned xl pr) prompter)
    as (_&He&_&Hx).
  fold op in He, Hx. unfold xlock_failure in He. unfold transitioned in Hx.
  rewrite Hpr in He, Hx. split.
  - intros e Hpe. apply xlock_finish_error. by rewrite He.
  - intros Hdis. rewrite Hdis in He, Hx. simpl in He, Hx.
    unfold service_xlock_finish, service_xlock_paths_finish,
      GSimpleAsyncResult.propagate_error.
    rewrite He. fold (closure op). by rewrite Hx.
Qed.

Lemma xlock_after_prompt_witness :
  let op := secret_service_lock [Fixture.ha] (Fixture.prompted_reply ["/c/1"])
              Sample.dismissed in
  service_xlock_finish (res op) (Some (Indeterminate 57005))
  = Returned {| xlock_count := 0; xlock_cell := Some (Indeterminate 57005);
                xlock_error := None |}.
Proof.
  intros op.
  apply (xlock_after_prompt "Lock" [Fixture.ha] ["/c/1"] "/prompt/7" Sample.dismissed
           (Indeterminate 57005)); reflexivity.
Defined.

Lemma omap_length_le {A B : Type} (f : A → option B) (l : list A) :
  (length (omap f l) ≤ length l)%nat.
Proof.
  induction l as [|x l IH]; [done|].
  change (omap f (x :: l))
    with (match f x with Some y => y :: omap f l | None => omap f l end).
  destruct (f x); simpl; lia.
Qed.

(** The number the finish function returns counts the paths reported as
    transitioned, not the objects in the list it stores: the list is never
    longer than that number, and is as long when every transitioned path
    is the path of an input object. *)
Theorem xlock_list_within_count method l proxy_call prompter cell r hs :
  let T := transitioned (proxy_call method (item_path <$> l)) prompter in
  Z.of_nat (length T) < 2 ^ 31 →
  T ≠ [] →
  xlock_failure (proxy_call method (item_path <$> l)) prompter = None →
  service_xlock_finish (res (service_xlock_async method l proxy_call prompter)) (Some cell)
  = Returned r →
  xlock_cell r = Some (GList hs) →
  xlock_count r = Z.of_nat (length T)
  ∧ Z.of_nat (length hs) ≤ xlock_count r
  ∧ (Forall (λ p, p ∈ item_path <$> l) T → Z.of_nat (length hs) = xlock_count r).
Proof.
  intros T Hlen HT Hok.
  destruct (service_xlock_chain method l proxy_call prompter) as (_&He&Ho&Hx).
  fold T in Hx. rewrite Hok in He.
  unfold service_xlock_finish, service_xlock_paths_finish,
    GSimpleAsyncResult.propagate_error.
  rewrite He.
  fold (closure (service_xlock_async method l proxy_call prompter)).
  rewrite Hx, Ho, gint_of_guint_small by lia.
  rewrite bool_decide_eq_true_2 by by eexists.
  destruct (Z.ltb_spec 0 (Z.of_nat (length T))) as [_|Hle].
  - rewrite xlock_rebuild. intros [= <-]. simpl. intros [= <-].
    split; [done|]. split.
    + pose proof (omap_length_le (λ p, items_table l !! p) T). lia.
    + intros Hall. rewrite omap_length_all; [done|].
      eapply Forall_impl; [exact Hall|]. intros p. apply items_table_covers.
  - destruct T; [done|]. simpl length in Hle. lia.
Qed.

Lemma xlock_list_within_count_witness :
  let l := [Sample.item 1 "/c/1"; Sample.item 2 "/c/2"] in
  let hs := [Sample.item 1 "/c/1"] in
  Z.of_nat (length hs) ≤ 2.
Proof.
  intros l hs.
  destruct (xlock_list_within_count "Unlock" l Sample.unlock_reply Sample.dismissed
              (Indeterminate 57005)
              {| xlock_count := 2; xlock_cell := Some (GList hs); xlock_error := None |} hs)
    as (_&Hle&_).
  - vm_compute. reflexivity.
  - discriminate.
  - reflexivity.
  - by vm_compute.
  - reflexivity.
  - exact Hle.
Defined.

(** ** Further properties of Lookup, and Remove *)

(** The lookup chain makes at most three requests, and it unlocks only
    when the search found no unlocked match, and then the first locked
    path alone. *)
Theorem lookup_unlocks_only_locked_match self op :
  secret_service_lookup self true = Some op →
  (length (issued op) ≤ 3)%nat
  ∧ ∀ ps, UnlockPaths ps ∈ issued op →
      ∃ q rest, search_for_paths self = PathsFound [] (q :: rest) ∧ ps = [q].
Proof.
  intros [= <-]. unfold call, on_lookup_searched.
  destruct (search_for_paths self) as [[|p u] [|q l]|e u l].
  - split; [simpl; lia|]. intros ps Hps. simpl in Hps.
    apply list_elem_of_singleton in Hps. done.
  - unfold call, on_lookup_unlocked.
    assert (Hlen : ∀ op' : LookupOp,
              issued op' = [SearchForPaths; UnlockPaths [q]]
              ∨ (∃ p, issued op' = [SearchForPaths; UnlockPaths [q]; GetSecretForPath p]) →
              (length (issued op') ≤ 3)%nat
              ∧ ∀ ps, UnlockPaths ps ∈ issued op' →
                  ∃ q0 rest, PathsFound [] (q :: l) = PathsFound [] (q0 :: rest) ∧ ps = [q0]).
    { intros op' [Hi|[p Hi]]; rewrite Hi; (split; [simpl; lia|]); intros ps Hps;
        repeat (apply elem_of_cons in Hps as [Hps|Hps]); try done;
        try (by apply elem_of_nil in Hps);
        injection Hps as ->; by exists q, l. }
    destruct (unlock_paths self [q]) as [[[|p u]|]|e]; apply Hlen; try (by left).
    right. exists p. unfold call, on_lookup_get_secret.
    by destruct (get_secret_for_path self p).
  - unfold call, on_lookup_get_secret.
    assert (Hi : issued (on_lookup_get_secret (get_secret_for_path self p)
                           (issue (GetSecretForPath p)
                              (issue SearchForPaths (operation_new {| value := None |}))))
                 = [SearchForPaths; GetSecretForPath p])
      by by destruct (get_secret_for_path self p).
    unfold on_lookup_get_secret in Hi. rewrite Hi.
    split; [simpl; lia|]. intros ps Hps.
    repeat (apply elem_of_cons in Hps as [Hps|Hps]); try done. by apply elem_of_nil in Hps.
  - unfold call, on_lookup_get_secret.
    assert (Hi : issued (on_lookup_get_secret (get_secret_for_path self p)
                           (issue (GetSecretForPath p)
                              (issue SearchForPaths (operation_new {| value := None |}))))
                 = [SearchForPaths; GetSecretForPath p])
      by by destruct (get_secret_for_path self p).
    unfold on_lookup_get_secret in Hi. rewrite Hi.
    split; [simpl; lia|]. intros ps Hps.
    repeat (apply elem_of_cons in Hps as [Hps|Hps]); try done. by apply elem_of_nil in Hps.
  - split; [simpl; lia|]. intros ps Hps. simpl in Hps.
    apply list_elem_of_singleton in Hps. done.
Qed.

Lemma lookup_unlocks_only_locked_match_witness :
  ∃ op, secret_service_lookup Sample.locked_service true = Some op
    ∧ (length (issued op) ≤ 3)%nat.
Proof.
  eexists. split; [reflexivity|].
  apply (lookup_unlocks_only_locked_match Sample.locked_service). reflexivity.
Defined.

(** What the remove chain yields for the reply of the delete call. *)
Lemma remove_finish_deleted (reply : DeleteReply) (op : DeleteOp) :
  GSimpleAsyncResult.error (res op) = None →
  secret_service_remove_finish (res (on_delete_password_complete reply op))
  = match reply with DeleteReturned b => inr b | DeleteFailed e => inl e end
  ∧ callbacks (on_delete_password_complete reply op)
    = callbacks op ++ [res (on_delete_password_complete reply op)]
  ∧ issued (on_delete_password_complete reply op) = issued op.
Proof.
  intros He. unfold secret_service_remove_finish, GSimpleAsyncResult.propagate_error.
  destruct reply as [b|e]; simpl; [|done]. by rewrite He.
Qed.

(** After a successful path search the remove chain completes once. With
    no match it makes no delete call and its result is [FALSE] without an
    error. With matches, however many, it makes one delete call, for the
    first unlocked path, else the first locked one, and its result is what
    that call returned, or its error. *)
Theorem remove_sequence self u l :
  delete_search_for_paths self = PathsFound u l →
  ∃ op, secret_service_remove self true = Some (Clean op)
    ∧ callbacks op = [res op]
    ∧ match first_match (PathsFound u l) with
      | None =>
          issued op = [DeleteSearch] ∧ secret_service_remove_finish (res op) = inr false
      | Some p =>
          issued op = [DeleteSearch; DeletePath p true]
          ∧ secret_service_remove_finish (res op)
            = match delete_path self p true with
              | DeleteReturned b => inr b
              | DeleteFailed e => inl e
              end
      end.
Proof.
  intros Hs. unfold secret_service_remove, on_search_delete_password. rewrite Hs.
  destruct u as [|p u]; [destruct l as [|q l]|]; eexists; (split; [reflexivity|]);
    try done; unfold call;
    match goal with
    | |- context [on_delete_password_complete ?r ?o] =>
        destruct (remove_finish_deleted r o) as (Hf&Hc&Hi); [done|];
        by rewrite Hf, Hc, Hi
    end.
Qed.

Lemma remove_sequence_witness :
  ∃ op, secret_service_remove Fixture.matching_service true = Some (Clean op)
    ∧ issued op = [DeleteSearch; DeletePath "/c/2" true]
    ∧ secret_service_remove_finish (res op) = inr true.
Proof.
  destruct (remove_sequence Fixture.matching_service ["/c/2"; "/c/3"] ["/c/4"])
    as (op&Hrun&_&Hi&Hf); [reflexivity|].
  exists op. repeat split; assumption.
Defined.

(** When the path search fails the remove chain completes once with that
    error and makes no delete call; but unless the failed call stored both
    arrays, the callback then frees a local array that was never
    assigned. *)
Theorem remove_search_failure self e u l :
  delete_search_for_paths self = PathsFailed e u l →
  ∃ op, callbacks op = [res op]
    ∧ issued op = [DeleteSearch]
    ∧ secret_service_remove_finish (res op) = inl e
    ∧ secret_service_remove self true
      = Some (if bool_decide (is_Some u ∧ is_Some l) then Clean op
              else FreedIndeterminate op).
Proof.
  intros Hs. unfold secret_service_remove, on_search_delete_password. rewrite Hs.
  exists (g_simple_async_result_complete
            (g_simple_async_result_take_error e
               (issue DeleteSearch
                  (operation_new {| delete_prompt := None; deleted := false |})))).
  split; [done|]. split; [done|]. split; [done|].
  by destruct u as [us|], l as [ls|].
Qed.

Lemma remove_search_failure_witness :
  let self := {| delete_search_for_paths := PathsFailed Sample.io_error None None;
                 delete_path := λ _ _, DeleteReturned true |} in
  ∃ op, secret_service_remove self true = Some (FreedIndeterminate op)
    ∧ secret_service_remove_finish (res op) = inl Sample.io_error.
Proof.
  intros self.
  destruct (remove_search_failure self Sample.io_error None None)
    as (op&_&_&Hf&Hrun); [reflexivity|].
  exists op. split; [exact Hrun|exact Hf].
Defined.

(** Lookup and remove agree on the item they act on: for the same search
    reply, the path the remove chain deletes is the path the lookup chain
    turns to right after the search, to fetch its secret when it is
    unlocked, to unlock it otherwise. *)
Theorem lookup_remove_same_target (ls : LookupService) (ds : DeleteService) u l p :
  search_for_paths ls = PathsFound u l →
  delete_search_for_paths ds = PathsFound u l →
  first_match (PathsFound u l) = Some p →
  (∃ op, secret_service_lookup ls true = Some op
     ∧ issued op !! 1%nat
       = Some (match u with [] => UnlockPaths [p] | _ => GetSecretForPath p end))
  ∧ (∃ op, secret_service_remove ds true = Some (Clean op)
       ∧ issued op !! 1%nat = Some (DeletePath p true)).
Proof.
  intros Hl Hd Hp. split.
  - eexists. split; [reflexivity|]. unfold call, on_lookup_searched. rewrite Hl.
    destruct u as [|p' u]; [destruct l as [|q l]|]; simpl in Hp; try done;
      injection Hp as ->.
    + unfold call, on_lookup_unlocked.
      destruct (unlock_paths ls [p]) as [[[|p' u]|]|e]; try done.
      unfold call, on_lookup_get_secret. by destruct (get_secret_for_path ls p').
    + unfold call, on_lookup_get_secret. by destruct (get_secret_for_path ls p).
  - destruct (remove_sequence ds u l Hd) as (op&Hrun&_&Hseq).
    rewrite Hp in Hseq. destruct Hseq as [Hi _].
    exists op. split; [done|]. by rewrite Hi.
Qed.

Lemma lookup_remove_same_target_witness :
  ∃ op, secret_service_remove
          {| delete_search_for_paths := PathsFound [] ["/c/6"; "/c/7"];
             delete_path := λ _ _, DeleteReturned true |} true = Some (Clean op)
    ∧ issued op !! 1%nat = Some (DeletePath "/c/6" true).
Proof.
  destruct (lookup_remove_same_target Sample.locked_service
              {| delete_search_for_paths := PathsFound [] ["/c/6"; "/c/7"];
                 delete_path := λ _ _, DeleteReturned true |}
              [] ["/c/6"; "/c/7"] "/c/6") as [_ Hremove]; [reflexivity..|].
  exact Hremove.
Defined.

(** ** ReadAlias *)

(** The read-alias chain completes once, whatever the replies. An alias
    without collection gives no collection and no error; a collection that
    is live is returned without a load; otherwise one load is requested and
    its collection, or its error, is the result. *)
Theorem read_alias_sequence self alias :
  let op := secret_service_read_alias self alias in
  callbacks op = [res op]
  ∧ match read_alias_path self alias with
    | AliasFailed e =>
        issued op = [ReadAliasPath alias]
        ∧ secret_service_read_alias_finish (res op) = inl e
    | AliasPath None =>
        issued op = [ReadAliasPath alias]
        ∧ secret_service_read_alias_finish (res op) = inr None
    | AliasPath (Some p) =>
        match collections self !! p with
        | Some c =>
            issued op = [ReadAliasPath alias]
            ∧ secret_service_read_alias_finish (res op) = inr (Some c)
        | None =>
            issued op = [ReadAliasPath alias; CollectionNew p]
            ∧ secret_service_read_alias_finish (res op)
              = match secret_collection_new self p with
                | Loaded c => inr (Some c)
                | LoadFailed e => inl e
                end
        end
    end.
Proof.
  unfold secret_service_read_alias, call, on_read_alias_path.
  destruct (read_alias_path self alias) as [[p|]|e]; [|done..].
  unfold _secret_service_find_collection_instance. simpl.
  destruct (collections self !! p) as [c|]; [done|].
  unfold call, on_read_alias_collection.
  by destruct (secret_collection_new self p).
Qed.

(** [secret_service_read_alias_sync], although written separately from the
    chain, returns for every service and alias what the finish function
    returns on the result the chain completes with. *)
Theorem read_alias_sync_agrees self alias :
  let op := secret_service_read_alias self alias in
  sync_result op = Some (res op)
  ∧ secret_service_read_alias_sync self alias
    = secret_service_read_alias_finish (res op).
Proof.
  unfold secret_service_read_alias_sync, sync_result,
    secret_service_read_alias, call, on_read_alias_path.
  destruct (read_alias_path self alias) as [[p|]|e]; [|done..].
  unfold _secret_service_find_collection_instance. simpl.
  destruct (collections self !! p) as [c|]; [done|].
  unfold call, on_read_alias_collection.
  by destruct (secret_collection_new self p).
Qed.

Example read_alias_live_collection :
  let op := secret_service_read_alias Fixture.alias_service "default" in
  issued op = [ReadAliasPath "default"]
  ∧ secret_service_read_alias_finish (res op) = inr (Some (Sample.item 4 "/coll/login")).
Proof. by vm_compute. Qed.
